(** * mtx: a tape-library changer, its status parser and its mock

    A shallow embedding of the Go packages [mtx] (src/mtx.go) and
    [mtx/mock] (src/mock/mock.go), followed by theorems about them.

    Conventions of the embedding:
    - a Go [int] is a [Z]; the platform is taken to be 64-bit, and the
      arithmetic on the sizes a caller gives to [New] has its wrap-around
      written out.  Slice indices are computed in [Z] without wrapping: a
      slice is shorter than [2^63], so an index expression that would wrap
      is out of range before and after wrapping and panics either way;
    - a Go [string] or [[]byte] is a [string] (a sequence of bytes);
    - a slice of pointers [[]*Slot] is a [list Slot].  [New] allocates one
      [Slot] per index and no code copies a slot pointer into another slice,
      so slots are never aliased; a [*Volume] is only ever moved, never
      written through, so it is modelled by its value ([option Volume], with
      [None] for [nil]);
    - an [error] is a value of [error]; a run-time panic is [Panics]. *)

From Stdlib Require Import ZArith String Ascii Lia.
From Stdlib Require Import DecimalString DecimalFacts DecimalPos.
From stdpp Require Import gmap strings list.

Open Scope string_scope.
Open Scope Z_scope.

(** ** Errors, panics and results *)

(** [strconv.ErrSyntax] and [strconv.ErrRange]. *)
Inductive NumErrKind := ErrSyntax | ErrRange.

Inductive error :=
| ErrorString (msg : string)                       (* errors.New(msg) *)
| NumError (func num : string) (err : NumErrKind)  (* *strconv.NumError *)
| ErrTooLong.                                      (* bufio.ErrTooLong *)

Inductive panic :=
| IndexOutOfRange
| NilDereference
| MakeLenOutOfRange.

(** What a call does: it returns a value or it panics. *)
Inductive outcome (A : Type) :=
| Returns (a : A)
| Panics (p : panic).
Arguments Returns {A} a.
Arguments Panics {A} p.

(** A Go function returning [(T, error)]: in this code base always either
    a value with a [nil] error or a [nil]/zero value with an error. *)
Inductive result (A : Type) :=
| Ok (a : A)
| Err (e : error).
Arguments Ok {A} a.
Arguments Err {A} e.

Definition is_Err {A} (r : result A) : Prop := ∃ e, r = Err e.

(** [x ← f; k] is Go's [x, err := f; if err != nil { return nil, err }; k]. *)
#[global] Instance result_ret : MRet result := λ A a, Ok a.
#[global] Instance result_bind : MBind result :=
  λ A B f r, match r with Ok a => f a | Err e => Err e end.

(** [l[i]] for a Go [int] index: [None] stands for the bounds-check panic. *)
Definition index {A} (l : list A) (i : Z) : option A :=
  if 0 <=? i then l !! Z.to_nat i else None.

(** [l[i] = x] once the bounds check has passed. *)
Definition store {A} (l : list A) (i : Z) (x : A) : list A :=
  <[Z.to_nat i := x]> l.

(** Two's complement wrap-around of a 64-bit [int]. *)
Definition wrap (x : Z) : Z := (x + 2 ^ 63) mod 2 ^ 64 - 2 ^ 63.

(** ** Formatting and parsing integers (fmt, strconv) *)

(** The newline. *)
Definition nl : string := String "010"%char "".

(** [%d] and [strconv.Itoa]. *)
Definition Itoa (n : Z) : string := NilZero.string_of_int (Z.to_int n).

Fixpoint zeros (n : nat) : string :=
  match n with
  | O => ""
  | S n => String "0" (zeros n)
  end.

(** [%05d]: the sign, then zeros up to a total width of five. *)
Definition fmt_05d (n : Z) : string :=
  if n <? 0
  then let d := Itoa (- n) in "-" ++ zeros (4 - String.length d) ++ d
  else let d := Itoa n in zeros (5 - String.length d) ++ d.

Definition is_digit (c : ascii) : bool :=
  let n := N_of_ascii c in ((48 <=? n) && (n <=? 57))%N.

Definition digit_val (c : ascii) : Z := Z.of_N (N_of_ascii c) - 48.

(** The loop of [strconv.ParseUint] for base 10 and 64 bits: a byte that
    is not a digit is a syntax error, an overflow a range error, whichever
    comes first. *)
Fixpoint parse_uint (s : string) (n : Z) : NumErrKind + Z :=
  match s with
  | "" => inr n
  | String c s' =>
      if is_digit c then
        if n >=? (2 ^ 64 - 1) / 10 + 1 then inl ErrRange
        else
          let n := n * 10 in
          let n1 := (n + digit_val c) mod 2 ^ 64 in
          if n1 <? n then inl ErrRange else parse_uint s' n1
      else inl ErrSyntax
  end.

(** [strconv.ParseInt(s, 10, 0)]: an optional sign, at least one digit,
    and a value that fits a 64-bit [int]. *)
Definition parse_int (s : string) : NumErrKind + Z :=
  match s with
  | "" => inl ErrSyntax
  | String c s' =>
      let neg := Ascii.eqb c "-" in
      let body := if Ascii.eqb c "+" || neg then s' else s in
      match body with
      | "" => inl ErrSyntax
      | _ =>
          match parse_uint body 0 with
          | inl e => inl e
          | inr un =>
              if negb neg && (un >=? 2 ^ 63) then inl ErrRange
              else if neg && (un >? 2 ^ 63) then inl ErrRange
              else inr (if neg then - un else un)
          end
      end
  end.

(** [strconv.Atoi]. *)
Definition Atoi (s : string) : result Z :=
  match parse_int s with
  | inl e => Err (NumError "Atoi" s e)
  | inr n => Ok n
  end.

(** ** Regular expressions (package regexp)

    The fragment of Go's RE2 syntax that the patterns of src/mtx.go use:
    literal bytes, the classes [.], [\s] and [\d], a greedy star on a
    single byte or class, escaped punctuation, and capturing groups that
    are not nested.  Matching is leftmost-first, as Go documents it: the
    match that begins earliest and, among those, the one a backtracking
    search finds first.  Patterns and inputs are taken byte by byte: the
    patterns are ASCII, and a byte below 128 is never part of a longer
    UTF-8 sequence, so for these patterns bytes and runes give the same
    submatches. *)

Inductive cclass :=
| CAny                (* [.]: any byte but a newline *)
| CSpace              (* [\s]: tab, newline, form feed, carriage return, space *)
| CDigit              (* [\d]: 0 to 9 *)
| CChar (a : ascii).  (* the byte itself *)

Inductive regex :=
| Eps
| One (c : cclass)
| Star (c : cclass)
| Cat (r1 r2 : regex)
| Cap (r : regex).

Definition in_class (c : cclass) (a : ascii) : bool :=
  match c with
  | CAny => negb (Ascii.eqb a "010")
  | CSpace =>
      Ascii.eqb a "009" || Ascii.eqb a "010" || Ascii.eqb a "012"
      || Ascii.eqb a "013" || Ascii.eqb a " "
  | CDigit => is_digit a
  | CChar b => Ascii.eqb a b
  end.

(** The atom that a pattern byte, or an escaped one, stands for. *)
Definition atom_of (escaped : bool) (a : ascii) : cclass :=
  if escaped then
    if Ascii.eqb a "s" then CSpace
    else if Ascii.eqb a "d" then CDigit
    else CChar a
  else if Ascii.eqb a "." then CAny else CChar a.

Definition is_alnum (a : ascii) : bool :=
  let n := N_of_ascii a in
  is_digit a || ((65 <=? n) && (n <=? 90))%N || ((97 <=? n) && (n <=? 122))%N.

(** What this fragment reads: not the operators [+ ? | ^ $] and the
    brackets and braces, and of the escapes only [\s], [\d] and escaped
    punctuation. *)
Definition supported (escaped : bool) (a : ascii) : bool :=
  if escaped then
    Ascii.eqb a "s" || Ascii.eqb a "d" || negb (is_alnum a)
  else
    negb (existsb (Ascii.eqb a) ["+"; "?"; "|"; "^"; "$"; "["; "]"; "{"; "}"]%char).

(** [parse p outer cur]: [cur] is the sequence parsed so far at the current
    level and [outer], inside a group, the sequence that came before it. *)
Fixpoint parse (p : string) (outer : option regex) (cur : regex)
  : option regex :=
  match p with
  | "" => match outer with None => Some cur | Some _ => None end
  | String "(" p' =>
      match outer with
      | None => parse p' (Some cur) Eps
      | Some _ => None
      end
  | String ")" p' =>
      match outer with
      | Some r => parse p' None (Cat r (Cap cur))
      | None => None
      end
  | String "*" _ => None
  | String "\" "" => None
  | String "\" (String a p') =>
      if supported true a then
        match p' with
        | String "*" p'' => parse p'' outer (Cat cur (Star (atom_of true a)))
        | _ => parse p' outer (Cat cur (One (atom_of true a)))
        end
      else None
  | String a p' =>
      if supported false a then
        match p' with
        | String "*" p'' => parse p'' outer (Cat cur (Star (atom_of false a)))
        | _ => parse p' outer (Cat cur (One (atom_of false a)))
        end
      else None
  end.

(** [regexp.MustCompile]; the six patterns of src/mtx.go all parse. *)
Definition MustCompile (p : string) : regex :=
  default Eps (parse p None Eps).

(** The bytes of [s] that come before its suffix [rest]. *)
Definition consumed (s rest : string) : string :=
  substring 0 (String.length s - String.length rest) s.

(** A partial match: the input left and the groups closed so far. *)
Definition mstate : Type := string * list string.

Fixpoint match_star (c : cclass) (s : string) (caps : list string)
    (k : string → list string → option mstate) : option mstate :=
  match s with
  | String a s' =>
      if in_class c a then
        match match_star c s' caps k with
        | Some r => Some r
        | None => k s caps
        end
      else k s caps
  | "" => k s caps
  end.

Fixpoint match_here (r : regex) (s : string) (caps : list string)
    (k : string → list string → option mstate) : option mstate :=
  match r with
  | Eps => k s caps
  | One c =>
      match s with
      | String a s' => if in_class c a then k s' caps else None
      | "" => None
      end
  | Star c => match_star c s caps k
  | Cat r1 r2 =>
      match_here r1 s caps (λ s' caps', match_here r2 s' caps' k)
  | Cap r =>
      match_here r s caps (λ s' caps', k s' (caps' ++ [consumed s s'])%list)
  end.

(** [Regexp.FindStringSubmatch]: [None] is the [nil] slice of no match;
    otherwise the whole match followed by the groups. *)
Fixpoint FindStringSubmatch (r : regex) (s : string) : option (list string) :=
  match match_here r s [] (λ s' caps, Some (s', caps)) with
  | Some (rest, caps) => Some (consumed s rest :: caps)
  | None =>
      match s with
      | "" => None
      | String _ s' => FindStringSubmatch r s'
      end
  end.

(** [matches[i]] of a submatch slice. *)
Definition sub (matches : list string) (i : nat) : string :=
  default "" (matches !! i).

(** ** Scanning lines (package bufio)

    A [bufio.Scanner] with the default split function [ScanLines] over a
    [bytes.Reader], as documented: a token is the text up to the next
    newline, without the newline and without one trailing carriage return;
    a last line without newline is a token when it is not empty; a line
    that does not fit the 64 KiB buffer stops the scan with [ErrTooLong],
    and a stopped scanner yields no further token.  The scanner's state is
    the list of raw lines it has not yet handed out. *)

Fixpoint raw_lines (s : string) : list string :=
  match s with
  | "" => []
  | String c s' =>
      if Ascii.eqb c "010" then "" :: raw_lines s'
      else match raw_lines s' with
           | [] => [String c ""]
           | l :: ls => String c l :: ls
           end
  end.

Fixpoint dropCR (s : string) : string :=
  match s with
  | "" => ""
  | String c "" => if Ascii.eqb c "013" then "" else s
  | String c s' => String c (dropCR s')
  end.

Definition NewScanner (input : string) : list string := raw_lines input.

(** The token of a raw line, [None] when the line is too long. *)
Definition token (raw : string) : option string :=
  if (N.of_nat (String.length raw) <? 65536)%N then Some (dropCR raw)
  else None.

(** ** Package mtx: the data model (src/mtx.go, lines 18-78) *)

Module mtx.

Inductive SlotType := DataTransferSlot | StorageSlot | MailSlot.

Record Volume := mkVolume {
  Serial : string;   (* the VOLSER of the tape *)
  Home : Z           (* the home slot of this volume *)
}.

Record Slot := mkSlot {
  Num : Z;               (* the slot number inside the library *)
  Typ : SlotType;        (* field [Type] *)
  Vol : option Volume    (* non-nil when a volume is in the slot *)
}.

Definition set_Vol (s : Slot) (v : option Volume) : Slot :=
  {| Num := Num s; Typ := Typ s; Vol := v |}.

Definition set_Typ (s : Slot) (t : SlotType) : Slot :=
  {| Num := Num s; Typ := t; Vol := Vol s |}.

#[global] Instance SlotType_eq_dec : EqDecision SlotType.
Proof. solve_decision. Defined.
#[global] Instance Volume_eq_dec : EqDecision Volume.
Proof. solve_decision. Defined.
#[global] Instance Slot_eq_dec : EqDecision Slot.
Proof. solve_decision. Defined.

(** The patterns of lines 28-35, as written in the source. *)
Definition hdrRegexp : regex :=
  MustCompile "\s*Storage Changer\s*(.*):(\d*) Drives, (\d*) Slots \((\d*) Import/Export \)".
Definition driveRegexp : regex :=
  MustCompile "Data Transfer Element (\d*):(.*)".
Definition driveElementRegexp : regex :=
  MustCompile "Full \(Storage Element (\d*) Loaded\):VolumeTag = (.*)".
Definition slotRegexp : regex :=
  MustCompile "\s*Storage Element (\d*):(.*)".
Definition mailSlotRegexp : regex :=
  MustCompile "\s*Storage Element (\d*) IMPORT/EXPORT:(.*)".
Definition slotElementRegexp : regex :=
  MustCompile "Full :VolumeTag=(.*)".

Record Status := mkStatus {
  MaxDrives : Z;
  NumSlots : Z;
  NumStorageSlots : Z;
  NumMailSlots : Z;
  Drives : list Slot;
  Slots : list Slot
}.

(** Reading a Go map: a missing key, or a [nil] map, gives the zero value. *)
Definition get_int (m : gmap string Z) (k : string) : Z := default 0 (m !! k).
Definition get_slots (m : gmap string (list Slot)) (k : string) : list Slot :=
  default [] (m !! k).

(** [elements[k] = append(elements[k], slot)]. *)
Definition append_slot (k : string) (slot : Slot)
    (elements : gmap string (list Slot)) : gmap string (list Slot) :=
  <[k := (get_slots elements k ++ [slot])%list]> elements.

(** One turn of the loop of [elements] (lines 288-367) on the token
    [line]: the three patterns are tried in the order of the source. *)
Definition element_line (line : string) (elements : gmap string (list Slot))
  : result (gmap string (list Slot)) :=
  match FindStringSubmatch driveRegexp line with
  | Some matches =>
      elemnum ← Atoi (sub matches 1);
      let slot := {| Num := elemnum; Typ := DataTransferSlot; Vol := None |} in
      slot ←
        (if negb (String.eqb (sub matches 2) "Empty") then
           match FindStringSubmatch driveElementRegexp (sub matches 2) with
           | None => Err (ErrorString "failed to parse transfer element")
           | Some matches =>
               home ← Atoi (sub matches 1);
               Ok (set_Vol slot
                     (Some {| Serial := sub matches 2; Home := home |}))
           end
         else Ok slot);
      Ok (append_slot "transfer" slot elements)
  | None =>
  match FindStringSubmatch slotRegexp line with
  | Some matches =>
      elemnum ← Atoi (sub matches 1);
      let slot := {| Num := elemnum; Typ := StorageSlot; Vol := None |} in
      slot ←
        (if negb (String.eqb (sub matches 2) "Empty") then
           match FindStringSubmatch slotElementRegexp (sub matches 2) with
           | None =>
               Err (ErrorString
                      ("failed to parse slot element: " ++ sub matches 2))
           | Some match_ =>
               Ok (set_Vol slot
                     (Some {| Serial := sub match_ 1; Home := elemnum |}))
           end
         else Ok slot);
      Ok (append_slot "storage" slot elements)
  | None =>
  match FindStringSubmatch mailSlotRegexp line with
  | Some matches =>
      elemnum ← Atoi (sub matches 1);
      let slot := {| Num := elemnum; Typ := MailSlot; Vol := None |} in
      slot ←
        (if negb (String.eqb (sub matches 2) "Empty") then
           match FindStringSubmatch slotElementRegexp (sub matches 2) with
           | None => Err (ErrorString "failed to parse slot element")
           | Some matches =>
               Ok (set_Vol slot
                     (Some {| Serial := sub matches 1; Home := elemnum |}))
           end
         else Ok slot);
      Ok (append_slot "mail" slot elements)
  | None => Err (ErrorString "failed to parse slot")
  end end end.

(** The loop [for scanner.Scan() { ... }] and what follows it: it ends
    when the scanner stops, with [scanner.Err()] as the error if any. *)
Fixpoint scan_elements (scanner : list string)
    (elements : gmap string (list Slot))
  : result (gmap string (list Slot)) :=
  match scanner with
  | [] => Ok elements
  | raw :: scanner =>
      match token raw with
      | None => Err ErrTooLong
      | Some line =>
          elements ← element_line line elements;
          scan_elements scanner elements
      end
  end.

(** [Changer.elements] (lines 273-375).  The first [scanner.Scan()] skips
    the header without looking at it; a header too long for the scanner
    stops it, as the documentation of [bufio.Scanner] has it, and the
    loop then ends at once with [ErrTooLong]. *)
Definition elements (status : string) : result (gmap string (list Slot)) :=
  let elements : gmap string (list Slot) :=
    <["transfer" := []]> (<["storage" := []]> (<["mail" := []]> ∅)) in
  match NewScanner status with
  | [] => scan_elements [] elements
  | raw :: scanner =>
      match token raw with
      | None => Err ErrTooLong
      | Some _ => scan_elements scanner elements
      end
  end.

(** [Changer.params] (lines 377-412). *)
Definition params (status : string) : result (gmap string Z) :=
  let params : gmap string Z := ∅ in
  match NewScanner status with
  | [] => Ok params
  | raw :: _ =>
      match token raw with
      | None => Err ErrTooLong
      | Some line =>
          match FindStringSubmatch hdrRegexp line with
          | None => Err (ErrorString "failed to match mtx status header")
          | Some matches =>
              n ← Atoi (sub matches 2);
              let params := <["maxDrives" := n]> params in
              n ← Atoi (sub matches 3);
              let params := <["numSlots" := n]> params in
              n ← Atoi (sub matches 4);
              let params := <["numMailSlots" := n]> params in
              Ok params
          end
      end
  end.

(** The methods of [Changer] (lines 85-271) over an implementation of
    [Interface]: [S] is the state of the implementation and [Do] its one
    method, which returns the raw bytes ([None] for [nil]), the error and
    the state after the call, or panics. *)
Module Changer.
Section Methods.
Context {S : Type}.
Variable Do : list string → S → outcome (option string * option error * S).

Definition command (cmd : string) (slotnum drivenum : Z) (st : S)
  : outcome (option error * S) :=
  match Do [cmd; Itoa slotnum; Itoa drivenum] st with
  | Panics p => Panics p
  | Returns (_, err, st) => Returns (err, st)
  end.

Definition Load := command "load".
Definition Unload := command "unload".
Definition Transfer := command "transfer".

(** The shared shape of the accessors: query the status, parse it with
    [parse], and return [get] of the parse, or [fail] and the error. *)
Definition query {P A : Type} (parse : string → result P) (get : P → A)
    (fail : A) (st : S) : outcome (A * option error * S) :=
  match Do ["status"] st with
  | Panics p => Panics p
  | Returns (_, Some err, st) => Returns (fail, Some err, st)
  | Returns (status, None, st) =>
      match parse (default "" status) with
      | Err err => Returns (fail, Some err, st)
      | Ok parsed => Returns (get parsed, None, st)
      end
  end.

Definition MaxDrives :=
  query params (λ params, get_int params "maxDrives") (-1).
Definition NumSlots :=
  query params (λ params, get_int params "numSlots") (-1).
Definition NumStorageSlots :=
  query params
    (λ params, get_int params "numSlots" - get_int params "numMailSlots")
    (-1).
Definition NumMailSlots :=
  query params (λ params, get_int params "numMailSlots") (-1).

Definition Drives :=
  query elements (λ elements, get_slots elements "transfer") [].
Definition Slots :=
  query elements
    (λ elems, (get_slots elems "storage" ++ get_slots elems "mail")%list) [].
Definition StorageSlots :=
  query elements (λ elems, get_slots elems "storage") [].
Definition MailSlots :=
  query elements (λ elems, get_slots elems "mail") [].

(** The map a parser hands back with its error: [nil] on failure. *)
Definition map_of {V} (r : result (gmap string V)) : gmap string V :=
  match r with Ok m => m | Err _ => ∅ end.

(** [Status] (lines 253-271): the error of [params] is overwritten by
    that of [elements], which is never read; the result is built from
    whatever maps came back and returned with a [nil] error. *)
Definition Status (st : S) : outcome (option mtx.Status * option error * S) :=
  match Do ["status"] st with
  | Panics p => Panics p
  | Returns (_, Some err, st) => Returns (None, Some err, st)
  | Returns (status, None, st) =>
      let params := map_of (params (default "" status)) in
      let elems := map_of (elements (default "" status)) in
      Returns
        (Some
           {| mtx.MaxDrives := get_int params "maxDrives";
              mtx.NumSlots := get_int params "numSlots";
              mtx.NumStorageSlots :=
                get_int params "numSlots" - get_int params "numMailSlots";
              mtx.NumMailSlots := get_int params "numMailSlots";
              mtx.Drives := get_slots elems "transfer";
              mtx.Slots :=
                (get_slots elems "storage" ++ get_slots elems "mail")%list |},
         None, st)
  end.
End Methods.
End Changer.

End mtx.

(** ** Package mock: the in-memory changer (src/mock/mock.go) *)

Module mock.
Import mtx.

Record Changer := mkChanger {
  drives : list Slot;
  slots : list Slot;
  numDrives : Z;
  numStorageSlots : Z;
  numMailSlots : Z
}.

Definition set_drives (chgr : Changer) (l : list Slot) : Changer :=
  {| drives := l; slots := slots chgr; numDrives := numDrives chgr;
     numStorageSlots := numStorageSlots chgr;
     numMailSlots := numMailSlots chgr |}.

Definition set_slots (chgr : Changer) (l : list Slot) : Changer :=
  {| drives := drives chgr; slots := l; numDrives := numDrives chgr;
     numStorageSlots := numStorageSlots chgr;
     numMailSlots := numMailSlots chgr |}.

(** [make([]*Slot, n)] and the indices of the loop over it: a negative
    length panics (a length that memory cannot hold is not modelled). *)
Definition make_range (n : Z) : outcome (list Z) :=
  if n <? 0 then Panics MakeLenOutOfRange
  else Returns (Z.of_nat <$> seq 0 (Z.to_nat n)).

(** The body of the first loop of [New] at index [i]. *)
Definition new_drive (i : Z) : Slot :=
  {| Num := i; Typ := DataTransferSlot; Vol := None |}.

(** The body of the second loop of [New] at index [i]: the four [if]s
    in the order of the source, each overwriting what came before. *)
Definition new_slot (numStorageSlots numMailSlots numVolumes i : Z) : Slot :=
  let slot := {| Num := i + 1; Typ := StorageSlot; Vol := None |} in
  let slot :=
    if i <? numVolumes
    then set_Vol slot
           (Some {| Serial := "S" ++ fmt_05d i ++ "L6"; Home := i + 1 |})
    else slot in
  let slot :=
    if i =? wrap (numStorageSlots - 1)
    then set_Vol slot (Some {| Serial := "CLN000L1"; Home := i + 1 |})
    else slot in
  let slot :=
    if i >=? numStorageSlots then set_Typ slot MailSlot else slot in
  let slot :=
    if i =? wrap (wrap (numStorageSlots + numMailSlots) - 1)
    then set_Vol slot
           (Some {| Serial := "S" ++ fmt_05d numVolumes ++ "L6"; Home := i |})
    else slot in
  slot.

Definition New (numDrives numStorageSlots numMailSlots numVolumes : Z)
  : outcome Changer :=
  match make_range numDrives with
  | Panics p => Panics p
  | Returns ds =>
      match make_range (wrap (numStorageSlots + numMailSlots)) with
      | Panics p => Panics p
      | Returns ss =>
          Returns
            {| drives := new_drive <$> ds;
               slots :=
                 new_slot numStorageSlots numMailSlots numVolumes <$> ss;
               numDrives := numDrives;
               numStorageSlots := numStorageSlots;
               numMailSlots := numMailSlots |}
      end
  end.

(** [load], [unload] and [transfer] return the Go [error] ([None] for
    [nil]) and the changer after the call.  Every bounds check and nil
    dereference of the three functions comes before their first write,
    so a panic leaves the changer as it was. *)
Definition load (slotnum drivenum : Z) (chgr : Changer)
  : outcome (option error * Changer) :=
  match index (slots chgr) (slotnum - 1) with      (* slot := chgr.slots[slotnum-1] *)
  | None => Panics IndexOutOfRange
  | Some slot =>
      match index (drives chgr) drivenum with      (* chgr.drives[drivenum].Vol = slot.Vol *)
      | None => Panics IndexOutOfRange
      | Some drv =>
          let chgr :=
            set_drives chgr
              (store (drives chgr) drivenum (set_Vol drv (Vol slot))) in
          let chgr :=                              (* slot.Vol = nil *)
            set_slots chgr
              (store (slots chgr) (slotnum - 1) (set_Vol slot None)) in
          Returns (None, chgr)
      end
  end.

Definition unload (slotnum drivenum : Z) (chgr : Changer)
  : outcome (option error * Changer) :=
  match index (drives chgr) drivenum with          (* drv := chgr.drives[drivenum] *)
  | None => Panics IndexOutOfRange
  | Some drv =>
      let dest :=                                  (* slotnum = drv.Vol.Home *)
        if slotnum =? 0
        then match Vol drv with
             | None => Panics NilDereference
             | Some vol => Returns (Home vol)
             end
        else Returns slotnum in
      match dest with
      | Panics p => Panics p
      | Returns slotnum =>
          match index (slots chgr) (slotnum - 1) with   (* chgr.slots[slotnum-1].Vol = drv.Vol *)
          | None => Panics IndexOutOfRange
          | Some slot =>
              let chgr :=
                set_slots chgr
                  (store (slots chgr) (slotnum - 1) (set_Vol slot (Vol drv))) in
              let chgr :=                          (* drv.Vol = nil *)
                set_drives chgr
                  (store (drives chgr) drivenum (set_Vol drv None)) in
              Returns (None, chgr)
          end
      end
  end.

Definition transfer (from to : Z) (chgr : Changer)
  : outcome (option error * Changer) :=
  let from := from - 1 in
  let to := to - 1 in
  match index (slots chgr) from with
  | None => Panics IndexOutOfRange
  | Some src =>
      match Vol src with
      | None =>
          Returns
            (Some (ErrorString "unable to transfer volume: no volume in slot"),
             chgr)
      | Some vol =>
          match index (slots chgr) to with
          | None => Panics IndexOutOfRange
          | Some dst =>
              match Vol dst with
              | Some _ =>
                  Returns
                    (Some (ErrorString
                             "unable to transfer volume: slot already occupied"),
                     chgr)
              | None =>
                  (* chgr.slots[to].Vol = chgr.slots[from].Vol *)
                  let ss := store (slots chgr) to (set_Vol dst (Some vol)) in
                  (* chgr.slots[from].Vol = nil *)
                  match index ss from with
                  | None => Panics IndexOutOfRange
                  | Some src' =>
                      Returns
                        (None,
                         set_slots chgr (store ss from (set_Vol src' None)))
                  end
              end
          end
      end
  end.

Definition mtxSlotString (slot : Slot) : string :=
  match Vol slot with
  | None => "Empty"
  | Some vol =>
      match Typ slot with
      | DataTransferSlot =>
          "Full (Storage Element " ++ Itoa (Home vol)
          ++ " Loaded):VolumeTag = " ++ Serial vol
      | _ => "Full :VolumeTag=" ++ Serial vol
      end
  end.

(** The two loops of [status]: a drive is numbered by its index, a slot
    by its [Num]. *)
Definition drive_line (i : nat) (slot : Slot) : string :=
  "Data Transfer Element " ++ Itoa (Z.of_nat i) ++ ":" ++ mtxSlotString slot
  ++ nl.

Definition slot_line (slot : Slot) : string :=
  let extra :=
    match Typ slot with MailSlot => " IMPORT/EXPORT" | _ => "" end in
  "      Storage Element " ++ Itoa (Num slot) ++ extra ++ ":"
  ++ mtxSlotString slot ++ nl.

Definition header (chgr : Changer) : string :=
  "  Storage Changer " ++ "/dev/mock" ++ ":" ++ Itoa (numDrives chgr)
  ++ " Drives, " ++ Itoa (wrap (numStorageSlots chgr + numMailSlots chgr))
  ++ " Slots ( " ++ Itoa (numMailSlots chgr) ++ " Import/Export )" ++ nl.

Definition concat_lines (ls : list string) : string :=
  foldr String.append "" ls.

Definition status (chgr : Changer) : string :=
  header chgr
  ++ concat_lines (imap drive_line (drives chgr))
  ++ concat_lines (slot_line <$> slots chgr).

(** [Do] (lines 128-163). *)
Definition Do (args : list string) (chgr : Changer)
  : outcome (option string * option error * Changer) :=
  match args with
  | [] => Returns (None, Some (ErrorString "no command given"), chgr)
  | cmd :: _ =>
      if String.eqb cmd "status" then Returns (Some (status chgr), None, chgr)
      else if negb (length args =? 3)%nat then
        Returns (None, Some (ErrorString "wrong number of arguments"), chgr)
      else
        match Atoi (sub args 1) with
        | Err err => Returns (None, Some err, chgr)
        | Ok a =>
            match Atoi (sub args 2) with
            | Err err => Returns (None, Some err, chgr)
            | Ok b =>
                let op :=
                  if String.eqb cmd "load" then Some (load a b)
                  else if String.eqb cmd "unload" then Some (unload a b)
                  else if String.eqb cmd "transfer" then Some (transfer a b)
                  else None in
                match op with
                | Some op =>
                    match op chgr with
                    | Panics p => Panics p
                    | Returns (err, chgr) => Returns (None, err, chgr)
                    end
                | None =>
                    Returns
                      (None,
                       Some (ErrorString
                               "mtx/mock: unknown or unsupported mtx command"),
                       chgr)
                end
            end
        end
  end.

End mock.

(** * The vocabulary of the statements *)

Import mtx mock.

(** ** Slots, drives and the errors of [transfer] *)

(** Slot numbers are 1-based, drive numbers 0-based. *)
Definition slot_in_range (chgr : Changer) (slotnum : Z) : Prop :=
  1 ≤ slotnum ≤ Z.of_nat (length (slots chgr)).
Definition drive_in_range (chgr : Changer) (drivenum : Z) : Prop :=
  0 ≤ drivenum < Z.of_nat (length (drives chgr)).

(** The slot numbered [slotnum], the drive numbered [drivenum]. *)
Definition slot_at (chgr : Changer) (slotnum : Z) : option Slot :=
  index (slots chgr) (slotnum - 1).
Definition drive_at (chgr : Changer) (drivenum : Z) : option Slot :=
  index (drives chgr) drivenum.

(** The spec's [TransferError]: the two errors [transfer] makes. *)
Definition no_volume : error :=
  ErrorString "unable to transfer volume: no volume in slot".
Definition occupied : error :=
  ErrorString "unable to transfer volume: slot already occupied".
Definition TransferError (e : error) : Prop := e = no_volume ∨ e = occupied.

(** The mock of the README and of the spec's scenarios: [New(8, 32, 4, 16)]. *)
Definition fixture : Changer :=
  match New 8 32 4 16 with
  | Returns chgr => chgr
  | Panics _ => mkChanger [] [] 0 0 0
  end.

(** The slot number [unload] writes to: the explicit one, or with the
    sentinel 0 the home of the volume in the drive, if there is one. *)
Definition unload_dest (slotnum : Z) (drv : Slot) : option Z :=
  if slotnum =? 0 then Home <$> Vol drv else Some slotnum.

(** ** Sequences of operations *)

Inductive op :=
| OpLoad (slotnum drivenum : Z)
| OpUnload (slotnum drivenum : Z)
| OpTransfer (from to : Z).

Definition exec (o : op) : Changer → outcome (option error * Changer) :=
  match o with
  | OpLoad slotnum drivenum => load slotnum drivenum
  | OpUnload slotnum drivenum => unload slotnum drivenum
  | OpTransfer from to => transfer from to
  end.

(** Running a sequence: an error of one call does not stop the caller
    from making the next one; a panic does. *)
Fixpoint run (ops : list op) (chgr : Changer) : outcome Changer :=
  match ops with
  | [] => Returns chgr
  | o :: ops =>
      match exec o chgr with
      | Panics p => Panics p
      | Returns (_, chgr) => run ops chgr
      end
  end.

(** The serials of the volumes in the drives and in the slots. *)
Definition serial_of (slot : Slot) : option string := Serial <$> Vol slot.
Definition serials (chgr : Changer) : list string :=
  omap serial_of (drives chgr ++ slots chgr)%list.

Definition holds_volume (o : option Slot) : bool :=
  match o with Some slot => bool_decide (is_Some (Vol slot)) | None => false end.
Definition is_empty (o : option Slot) : bool :=
  match o with Some slot => bool_decide (Vol slot = None) | None => false end.

(** An operation with its indices in range that is none of the permissive
    overwrites: a load takes a volume from a slot into an empty drive, an
    unload takes a volume from a drive into an empty slot (the explicit
    one, or the volume's home for the sentinel 0). *)
Definition permitted (o : op) (chgr : Changer) : bool :=
  match o with
  | OpLoad slotnum drivenum =>
      holds_volume (slot_at chgr slotnum) && is_empty (drive_at chgr drivenum)
  | OpUnload slotnum drivenum =>
      holds_volume (drive_at chgr drivenum)
      && match drive_at chgr drivenum ≫= unload_dest slotnum with
         | Some dest => is_empty (slot_at chgr dest)
         | None => false
         end
  | OpTransfer from to =>
      bool_decide (slot_in_range chgr from)
      && bool_decide (slot_in_range chgr to)
  end.

(** Every operation of the sequence is permitted in the state it runs in. *)
Fixpoint all_permitted (ops : list op) (chgr : Changer) : bool :=
  match ops with
  | [] => true
  | o :: ops =>
      permitted o chgr
      && match exec o chgr with
         | Returns (_, chgr) => all_permitted ops chgr
         | Panics _ => false
         end
  end.

(** ** Status texts *)

(** The error [params] makes for a first line that is no header. *)
Definition header_error : error :=
  ErrorString "failed to match mtx status header".

(** The header line of the mock for 8 drives, 36 slots and 4 mail slots,
    and the same line without the blank after the opening parenthesis. *)
Definition fixture_header : string :=
  "  Storage Changer /dev/mock:8 Drives, 36 Slots ( 4 Import/Export )".
Definition tight_header : string :=
  "  Storage Changer /dev/mock:8 Drives, 36 Slots (4 Import/Export )".

(** An implementation of [Interface] that answers every command with the
    same text. *)
Definition canned (text : string) (args : list string) (st : unit)
  : outcome (option string * option error * unit) :=
  Returns (Some text, None, st).

(** A status text with a header that is not one and two element lines. *)
Definition bad_header_text : string :=
  "no header here" ++ nl
  ++ "Data Transfer Element 0:Empty" ++ nl
  ++ "      Storage Element 1:Full :VolumeTag=A00001L6" ++ nl.



(** ** Invocations of [Do] *)

(** The errors [Do] makes for a malformed invocation. *)
Definition ArgumentError (e : error) : Prop :=
  e = ErrorString "no command given"
  ∨ e = ErrorString "wrong number of arguments"
  ∨ e = ErrorString "mtx/mock: unknown or unsupported mtx command"
  ∨ ∃ num kind, e = NumError "Atoi" num kind.

(** What [Do] returns for the outcome of [load], [unload] or [transfer]. *)
Definition reply (r : outcome (option error * Changer))
  : outcome (option string * option error * Changer) :=
  match r with
  | Panics p => Panics p
  | Returns (err, chgr) => Returns (None, err, chgr)
  end.

(** A command with exactly two integer arguments. *)
Definition two_int_command (args : list string) : Prop :=
  ∃ cmd a b x y,
    args = [cmd; a; b] ∧ Atoi a = Ok x ∧ Atoi b = Ok y
    ∧ (cmd = "load" ∨ cmd = "unload" ∨ cmd = "transfer").

(** ** Texts and the shapes the patterns look for *)

(** Every byte of [s] passes [f]. *)
Fixpoint all_chars (f : ascii → bool) (s : string) : bool :=
  match s with
  | "" => true
  | String a s' => f a && all_chars f s'
  end.

(** A scan of the text for an opening parenthesis, digits, a blank and
    an [I]. *)
Inductive scan_state :=
| Idle
| Open     (* after a parenthesis and digits *)
| Blank    (* after a parenthesis, digits and a blank *)
| Found.

Definition scan_step (q : scan_state) (a : ascii) : scan_state :=
  match q with
  | Found => Found
  | _ =>
      if Ascii.eqb a "(" then Open
      else
        match q with
        | Open =>
            if is_digit a then Open
            else if Ascii.eqb a " " then Blank else Idle
        | Blank => if Ascii.eqb a "I" then Found else Idle
        | _ => Idle
        end
  end.

Fixpoint scan (q : scan_state) (s : string) : scan_state :=
  match s with
  | "" => q
  | String a s' => scan (scan_step q a) s'
  end.

(** The numbers the mock writes are made of digits and a sign. *)
Definition is_numeric (a : ascii) : bool := is_digit a || Ascii.eqb a "-".

(** The header line of the mock, for the three numbers as text. *)
Definition header_line (drives slots mail : string) : string :=
  "  Storage Changer /dev/mock:" ++ drives ++ " Drives, " ++ slots
  ++ " Slots ( " ++ mail ++ " Import/Export )".

(** Classes of bytes. *)
Definition not_newline (a : ascii) : bool := negb (Ascii.eqb a "010").

(** The value of decimal digits read after [acc]. *)
Fixpoint uint_value (d : Decimal.uint) (acc : Z) : Z :=
  match d with
  | Decimal.Nil => acc
  | Decimal.D0 d => uint_value d (acc * 10 + 0)
  | Decimal.D1 d => uint_value d (acc * 10 + 1)
  | Decimal.D2 d => uint_value d (acc * 10 + 2)
  | Decimal.D3 d => uint_value d (acc * 10 + 3)
  | Decimal.D4 d => uint_value d (acc * 10 + 4)
  | Decimal.D5 d => uint_value d (acc * 10 + 5)
  | Decimal.D6 d => uint_value d (acc * 10 + 6)
  | Decimal.D7 d => uint_value d (acc * 10 + 7)
  | Decimal.D8 d => uint_value d (acc * 10 + 8)
  | Decimal.D9 d => uint_value d (acc * 10 + 9)
  end.

(** ** Patterns as sequences of items *)

(** A pattern of src/mtx.go is a sequence of literals, starred classes and
    groups around a starred class. *)
Inductive item :=
| ILit (l : string)      (* literal text *)
| IStar (c : cclass)     (* a starred class *)
| IGroup (c : cclass).   (* a group around a starred class *)

(** The pattern of a sequence of items, nested as [parse] nests it. *)
Definition atoms (it : item) : list regex :=
  match it with
  | ILit l => (λ a, One (CChar a)) <$> list_ascii_of_string l
  | IStar c => [Star c]
  | IGroup c => [Cap (Cat Eps (Star c))]
  end.

Definition regex_of (items : list item) : regex :=
  fold_left Cat (items ≫= atoms) Eps.

(** [s] without its prefix [l], if it has it. *)
Fixpoint strip_prefix (l s : string) : option string :=
  match l with
  | "" => Some s
  | String a l' =>
      match s with
      | String b s' => if Ascii.eqb b a then strip_prefix l' s' else None
      | "" => None
      end
  end.

(** Matching item by item, and regex by regex. *)
Fixpoint match_items (items : list item) (s : string) (caps : list string)
    (k : string → list string → option mstate) : option mstate :=
  match items with
  | [] => k s caps
  | ILit l :: items =>
      match strip_prefix l s with
      | Some s' => match_items items s' caps k
      | None => None
      end
  | IStar c :: items =>
      match_star c s caps (λ s' caps', match_items items s' caps' k)
  | IGroup c :: items =>
      match_star c s caps
        (λ s' caps', match_items items s' (caps' ++ [consumed s s'])%list k)
  end.

Fixpoint match_list (rs : list regex) (s : string) (caps : list string)
    (k : string → list string → option mstate) : option mstate :=
  match rs with
  | [] => k s caps
  | r :: rs => match_here r s caps (λ s' caps', match_list rs s' caps' k)
  end.

(** The star stops where the class does. *)
Definition stops (c : cclass) (s : string) : Prop :=
  match s with
  | "" => True
  | String a _ => in_class c a = false
  end.

Definition not_D (a : ascii) : bool := negb (Ascii.eqb a "D").

(** A scan of the text for a [t], a blank, digits and a colon. *)
Inductive colon_state :=
| CIdle
| CT         (* after a [t] *)
| CNum       (* after a [t], a blank and digits *)
| CFound.

Definition colon_step (q : colon_state) (a : ascii) : colon_state :=
  match q with
  | CFound => CFound
  | _ =>
      if Ascii.eqb a "t" then CT
      else
        match q with
        | CT => if Ascii.eqb a " " then CNum else CIdle
        | CNum =>
            if is_digit a then CNum
            else if Ascii.eqb a ":" then CFound else CIdle
        | _ => CIdle
        end
  end.

Fixpoint colon_scan (q : colon_state) (s : string) : colon_state :=
  match s with
  | "" => q
  | String a s' => colon_scan (colon_step q a) s'
  end.

Definition not_t (a : ascii) : bool := negb (Ascii.eqb a "t").

(** ** Well-formed changers and their lines *)

(** The bytes of the serials that [New] makes. *)
Definition serial_char (a : ascii) : bool :=
  is_digit a || Ascii.eqb a "-" || Ascii.eqb a "S" || Ascii.eqb a "L"
  || Ascii.eqb a "C" || Ascii.eqb a "N".

Definition not_CR (a : ascii) : bool := negb (Ascii.eqb a "013").

(** A volume that [New] can have made and its drive line can carry. *)
Definition vol_ok (v : Volume) : Prop :=
  all_chars serial_char (Serial v) = true
  ∧ (String.length (Serial v) ≤ 100)%nat
  ∧ 0 ≤ Home v < 2 ^ 63.

Definition opt_vol_ok (o : option Volume) : Prop :=
  match o with Some v => vol_ok v | None => True end.

(** A line of [status] without its newline. *)
Definition drive_core (i : nat) (slot : Slot) : string :=
  "Data Transfer Element " ++ Itoa (Z.of_nat i) ++ ":" ++ mtxSlotString slot.

Definition slot_core (slot : Slot) : string :=
  let extra :=
    match Typ slot with MailSlot => " IMPORT/EXPORT" | _ => "" end in
  "      Storage Element " ++ Itoa (Num slot) ++ extra ++ ":"
  ++ mtxSlotString slot.

(** What [elements] makes of a slot line: the volume's home is the slot. *)
Definition rehome (n : Z) (v : Volume) : Volume :=
  {| Serial := Serial v; Home := n |}.

(** A drive and a slot as [New] makes them and the operations leave them. *)
Definition drive_ok (drv : Slot) : Prop :=
  Typ drv = DataTransferSlot ∧ opt_vol_ok (Vol drv).

Definition slot_ok (slot : Slot) : Prop :=
  (Typ slot = StorageSlot ∨ Typ slot = MailSlot)
  ∧ 0 ≤ Num slot < 2 ^ 63 ∧ opt_vol_ok (Vol slot).

(** No storage slot comes after a mail slot. *)
Definition mail_last (types : list SlotType) : Prop :=
  ∀ i j, (i ≤ j)%nat → types !! i = Some MailSlot →
         is_Some (types !! j) → types !! j = Some MailSlot.

Record well_formed (chgr : Changer) : Prop := {
  wf_drives : Forall drive_ok (drives chgr);
  wf_drive_nums :
    Num <$> drives chgr = Z.of_nat <$> seq 0 (length (drives chgr));
  wf_drive_count : Z.of_nat (length (drives chgr)) < 2 ^ 63;
  wf_slots : Forall slot_ok (slots chgr);
  wf_types : mail_last (Typ <$> slots chgr);
  wf_numDrives : - 2 ^ 64 < numDrives chgr < 2 ^ 64;
  wf_numSlots :
    - 2 ^ 64 < wrap (numStorageSlots chgr + numMailSlots chgr) < 2 ^ 64;
  wf_numMailSlots : - 2 ^ 64 < numMailSlots chgr < 2 ^ 64
}.

(** A Go [int]. *)
Definition is_int (n : Z) : Prop := - 2 ^ 63 ≤ n < 2 ^ 63.

(** A byte that is neither a newline nor a carriage return. *)
Definition plain (a : ascii) : bool := not_newline a && not_CR a.

(** What [elements] has after a drive line and after a slot line. *)
Definition parsed_drive (i : nat) (drv : Slot) : Slot :=
  {| Num := Z.of_nat i; Typ := DataTransferSlot; Vol := Vol drv |}.

Definition parsed_slot (slot : Slot) : Slot :=
  {| Num := Num slot; Typ := Typ slot;
     Vol := rehome (Num slot) <$> Vol slot |}.

(** The key of [elements] a slot of type [t] goes under. *)
Definition key_of (t : SlotType) : string :=
  match t with
  | DataTransferSlot => "transfer"
  | StorageSlot => "storage"
  | MailSlot => "mail"
  end.

Definition add_slot (elems : gmap string (list Slot)) (slot : Slot)
  : gmap string (list Slot) :=
  append_slot (key_of (Typ slot)) slot elems.

(** What the claim compares: number, type and serial. *)
Definition view (slot : Slot) : Z * SlotType * option string :=
  (Num slot, Typ slot, serial_of slot).

(** The map [elements] starts from. *)
Definition initial_elements : gmap string (list Slot) :=
  <["transfer" := []]> (<["storage" := []]> (<["mail" := []]> ∅)).

(** * Properties *)

(** ** Indexing *)

Section Indexing.
Context {A : Type}.
Implicit Types (l : list A) (i j : Z) (x y : A).

Lemma index_Some l i x :
  index l i = Some x ↔ 0 ≤ i ∧ l !! Z.to_nat i = Some x.
Proof.
  unfold index. destruct (Z.leb_spec 0 i); split.
  - auto.
  - by intros [_ ?].
  - discriminate.
  - intros [? _]. lia.
Qed.

Lemma index_in_range l i :
  0 ≤ i < Z.of_nat (length l) → ∃ x, index l i = Some x.
Proof.
  intros Hi. destruct (lookup_lt_is_Some_2 l (Z.to_nat i)) as [x Hx]; [lia|].
  exists x. apply index_Some. split; [lia | done].
Qed.

Lemma index_range l i x : index l i = Some x → 0 ≤ i < Z.of_nat (length l).
Proof.
  intros [Hi Hx]%index_Some. apply lookup_lt_Some in Hx. lia.
Qed.

Lemma length_store l i x : length (store l i x) = length l.
Proof. apply length_insert. Qed.

Lemma index_store_eq l i x :
  0 ≤ i < Z.of_nat (length l) → index (store l i x) i = Some x.
Proof.
  intros Hi. apply index_Some. split; [lia|].
  apply list_lookup_insert_eq. lia.
Qed.

Lemma index_store_ne l i j x :
  0 ≤ i → i ≠ j → index (store l i x) j = index l j.
Proof.
  intros Hi Hne. unfold index, store. destruct (0 <=? j) eqn:Hj; [|done].
  apply list_lookup_insert_ne. apply Z.leb_le in Hj. lia.
Qed.
End Indexing.

(** ** What a changer holds *)

Lemma slot_at_in_range chgr n :
  slot_in_range chgr n → ∃ slot, slot_at chgr n = Some slot.
Proof. intros H. apply index_in_range. unfold slot_in_range in H. lia. Qed.


Lemma slot_at_range chgr n slot :
  slot_at chgr n = Some slot → slot_in_range chgr n.
Proof. intros H%index_range. unfold slot_in_range. lia. Qed.

(** ** load *)

(** The changer [load] leaves behind, given what it found. *)
Lemma load_eq chgr slotnum drivenum slot drv :
  slot_at chgr slotnum = Some slot →
  drive_at chgr drivenum = Some drv →
  load slotnum drivenum chgr =
    Returns
      (None,
       {| drives := store (drives chgr) drivenum (set_Vol drv (Vol slot));
          slots := store (slots chgr) (slotnum - 1) (set_Vol slot None);
          numDrives := numDrives chgr;
          numStorageSlots := numStorageSlots chgr;
          numMailSlots := numMailSlots chgr |}).
Proof.
  unfold slot_at, drive_at, load. intros -> ->. done.
Qed.


Ltac in_range :=
  unfold slot_in_range, drive_in_range; vm_compute; split; congruence.


(** ** transfer *)

Lemma transfer_no_volume chgr a b src :
  slot_at chgr a = Some src → Vol src = None →
  transfer a b chgr = Returns (Some no_volume, chgr).
Proof. unfold slot_at, transfer. intros -> ->. done. Qed.

Lemma transfer_occupied chgr a b src dst vol vol' :
  slot_at chgr a = Some src → Vol src = Some vol →
  slot_at chgr b = Some dst → Vol dst = Some vol' →
  transfer a b chgr = Returns (Some occupied, chgr).
Proof. unfold slot_at, transfer. intros -> -> -> ->. done. Qed.

Lemma transfer_moves chgr a b src dst vol :
  slot_at chgr a = Some src → Vol src = Some vol →
  slot_at chgr b = Some dst → Vol dst = None →
  transfer a b chgr =
    Returns
      (None,
       set_slots chgr
         (store (store (slots chgr) (b - 1) (set_Vol dst (Some vol)))
            (a - 1) (set_Vol src None))).
Proof.
  unfold slot_at, transfer. intros Ha Hva Hb Hvb. rewrite Ha, Hva, Hb, Hvb.
  assert (a ≠ b) by (intros ->; congruence).
  rewrite index_store_ne, Ha; [done | | lia].
  apply index_range in Hb. lia.
Qed.

(** C3. For in-range slot numbers [a] and [b]: when slot [a] holds no
    volume, [transfer a b] fails with a transfer error, whatever slot [b]
    holds; when slot [b] holds a volume it fails with a transfer error,
    whatever slot [a] holds; in both cases the changer is unchanged.
    Otherwise it returns a [nil] error, slot [a] is empty, slot [b] holds
    the volume that was in [a], and every other slot, every drive and the
    counters are as before. *)
Theorem transfer_validation (chgr : Changer) (a b : Z) :
  slot_in_range chgr a →
  slot_in_range chgr b →
  ∃ src dst,
    slot_at chgr a = Some src ∧ slot_at chgr b = Some dst
    ∧ (Vol src = None →
       transfer a b chgr = Returns (Some no_volume, chgr))
    ∧ (is_Some (Vol dst) →
       ∃ e, TransferError e ∧ transfer a b chgr = Returns (Some e, chgr))
    ∧ (is_Some (Vol src) → Vol dst = None →
       ∃ chgr',
         transfer a b chgr = Returns (None, chgr')
         ∧ slot_at chgr' a = Some (set_Vol src None)
         ∧ slot_at chgr' b = Some (set_Vol dst (Vol src))
         ∧ (∀ n, n ≠ a → n ≠ b → slot_at chgr' n = slot_at chgr n)
         ∧ drives chgr' = drives chgr
         ∧ length (slots chgr') = length (slots chgr)
         ∧ numDrives chgr' = numDrives chgr
         ∧ numStorageSlots chgr' = numStorageSlots chgr
         ∧ numMailSlots chgr' = numMailSlots chgr).
Proof.
  intros Ha Hb.
  destruct (slot_at_in_range _ _ Ha) as [src Hsrc].
  destruct (slot_at_in_range _ _ Hb) as [dst Hdst].
  exists src, dst. split; [done|]. split; [done|].
  split; [|split].
  - intros Hv. by eapply transfer_no_volume.
  - intros [vol' Hv']. destruct (Vol src) as [vol|] eqn:Hv.
    + exists occupied. split; [by right|]. by eapply transfer_occupied.
    + exists no_volume. split; [by left|]. by eapply transfer_no_volume.
  - intros [vol Hv] Hv'. eexists. split; [by eapply transfer_moves|].
    assert (a ≠ b) by (intros ->; congruence).
    unfold slot_in_range in *. unfold slot_at; simpl.
    repeat split; try done.
    + apply index_store_eq. rewrite length_store. lia.
    + rewrite index_store_ne by lia. rewrite Hv.
      apply index_store_eq. lia.
    + intros n Hna Hnb. rewrite !index_store_ne by lia. done.
    + by rewrite !length_store.
Qed.

Lemma transfer_validation_witness :
  transfer 17 1 fixture = Returns (Some no_volume, fixture)
  ∧ (∃ e, TransferError e ∧ transfer 1 2 fixture = Returns (Some e, fixture))
  ∧ (∃ chgr',
       transfer 1 17 fixture = Returns (None, chgr')
       ∧ (Vol <$> slot_at chgr' 1) = Some None
       ∧ (Vol <$> slot_at chgr' 17) = (Vol <$> slot_at fixture 1)).
Proof.
  split; [|split].
  - destruct (transfer_validation fixture 17 1) as (src & dst & Hs & _ & H & _);
      [in_range | in_range |].
    apply H. vm_compute in Hs. by injection Hs as <-.
  - destruct (transfer_validation fixture 1 2) as (src & dst & _ & Hd & _ & H & _);
      [in_range | in_range |].
    apply H. vm_compute in Hd. injection Hd as <-. by eexists.
  - destruct (transfer_validation fixture 1 17)
      as (src & dst & Hs & Hd & _ & _ & H); [in_range | in_range |].
    vm_compute in Hs, Hd. injection Hs as <-. injection Hd as <-.
    destruct H as (chgr' & Ht & Ha & Hb & _); [by eexists | done |].
    exists chgr'. rewrite Ha, Hb. done.
Defined.

(** ** unload *)

Lemma unload_eq chgr slotnum drivenum drv dest slot :
  drive_at chgr drivenum = Some drv →
  unload_dest slotnum drv = Some dest →
  slot_at chgr dest = Some slot →
  unload slotnum drivenum chgr =
    Returns
      (None,
       {| drives := store (drives chgr) drivenum (set_Vol drv None);
          slots := store (slots chgr) (dest - 1) (set_Vol slot (Vol drv));
          numDrives := numDrives chgr;
          numStorageSlots := numStorageSlots chgr;
          numMailSlots := numMailSlots chgr |}).
Proof.
  unfold drive_at, slot_at, unload_dest, unload. intros -> Hdest Hslot.
  destruct (slotnum =? 0).
  - destruct (Vol drv) as [vol|]; [|done]. injection Hdest as ->.
    by rewrite Hslot.
  - injection Hdest as ->. by rewrite Hslot.
Qed.

Lemma unload_returns_inv chgr slotnum drivenum r :
  unload slotnum drivenum chgr = Returns r →
  ∃ drv dest slot,
    drive_at chgr drivenum = Some drv
    ∧ unload_dest slotnum drv = Some dest
    ∧ slot_at chgr dest = Some slot.
Proof.
  unfold drive_at, slot_at, unload_dest, unload.
  destruct (index (drives chgr) drivenum) as [drv|]; [|done].
  destruct (slotnum =? 0).
  - destruct (Vol drv) as [vol|] eqn:Hv; [|done].
    destruct (index (slots chgr) (Home vol - 1)) as [slot|] eqn:Hs; [|done].
    intros _. exists drv, (Home vol), slot. by rewrite Hv.
  - destruct (index (slots chgr) (slotnum - 1)) as [slot|] eqn:Hs; [|done].
    intros _. by exists drv, slotnum, slot.
Qed.

(** C10. [unload] returns (rather than panics) exactly when the drive
    index is in range, the drive holds a volume if [slotnum] is the
    sentinel 0, and the destination, the explicit slot or the volume's
    home, is an in-range slot number.  In particular [unload 0 d] on an
    in-range empty drive [d] is a nil dereference. *)
Theorem unload_total_iff (chgr : Changer) (slotnum drivenum : Z) :
  ((∃ r, unload slotnum drivenum chgr = Returns r)
   ↔ ∃ drv, drive_at chgr drivenum = Some drv
       ∧ (if decide (slotnum = 0)
          then ∃ vol, Vol drv = Some vol ∧ slot_in_range chgr (Home vol)
          else slot_in_range chgr slotnum))
  ∧ (∀ drv, drive_at chgr drivenum = Some drv → Vol drv = None →
       unload 0 drivenum chgr = Panics NilDereference).
Proof.
  split; [split|].
  - intros [r Hr]. apply unload_returns_inv in Hr as (drv & dest & slot & Hd & Hdest & Hs).
    exists drv. split; [done|]. apply slot_at_range in Hs.
    unfold unload_dest in Hdest. case_decide as H0.
    + subst slotnum. simpl in Hdest. destruct (Vol drv) as [vol|]; [|done].
      simpl in Hdest. injection Hdest as <-. by exists vol.
    + apply Z.eqb_neq in H0. rewrite H0 in Hdest. by injection Hdest as ->.
  - intros (drv & Hd & H). case_decide as H0.
    + destruct H as (vol & Hv & Hr). subst slotnum.
      destruct (slot_at_in_range _ _ Hr) as [slot Hs].
      eexists. eapply unload_eq; [done | | done].
      unfold unload_dest. simpl. by rewrite Hv.
    + destruct (slot_at_in_range _ _ H) as [slot Hs].
      eexists. eapply unload_eq; [done | | done].
      unfold unload_dest. apply Z.eqb_neq in H0. by rewrite H0.
  - unfold drive_at, unload. intros drv -> ->. done.
Qed.

(** C6. With the sentinel 0, [unload] does what it does for the home of
    the volume in the drive; with any other in-range slot number it moves
    the drive's volume to that slot and empties the drive.  On the mock of
    [New(8, 32, 4, 16)], [load(1, 0)] then [unload(0, 0)] gives back the
    changer it started from: slot 1 holds its volume again and drive 0 is
    empty; so do [Load(1, 0)] and [Unload(0, 0)] of a [Changer] wrapping
    the mock. *)
Theorem unload_home_roundtrip :
  (∀ chgr drivenum drv vol,
     drive_at chgr drivenum = Some drv → Vol drv = Some vol →
     unload 0 drivenum chgr = unload (Home vol) drivenum chgr)
  ∧ (∀ chgr slotnum drivenum drv slot,
       slotnum ≠ 0 →
       drive_at chgr drivenum = Some drv →
       slot_at chgr slotnum = Some slot →
       ∃ chgr',
         unload slotnum drivenum chgr = Returns (None, chgr')
         ∧ slot_at chgr' slotnum = Some (set_Vol slot (Vol drv))
         ∧ drive_at chgr' drivenum = Some (set_Vol drv None)
         ∧ (∀ n, n ≠ slotnum → slot_at chgr' n = slot_at chgr n)
         ∧ (∀ d, d ≠ drivenum → drive_at chgr' d = drive_at chgr d))
  ∧ (∃ chgr1,
       load 1 0 fixture = Returns (None, chgr1)
       ∧ (Serial <$> (slot_at fixture 1 ≫= Vol)) = Some "S00000L6"
       ∧ drive_at chgr1 0 ≫= Vol = slot_at fixture 1 ≫= Vol
       ∧ slot_at chgr1 1 ≫= Vol = None
       ∧ unload 0 0 chgr1 = Returns (None, fixture)
       ∧ drive_at fixture 0 ≫= Vol = None
       ∧ Changer.Load Do 1 0 fixture = Returns (None, chgr1)
       ∧ Changer.Unload Do 0 0 chgr1 = Returns (None, fixture)).
Proof.
  split; [|split].
  - unfold drive_at, unload. intros chgr drivenum drv vol -> ->. simpl.
    destruct (Home vol =? 0) eqn:H0; [|done].
    apply Z.eqb_eq in H0. by rewrite H0.
  - intros chgr slotnum drivenum drv slot H0 Hd Hs.
    eexists. split.
    { eapply unload_eq; [done | | done].
      unfold unload_dest. apply Z.eqb_neq in H0. by rewrite H0. }
    apply index_range in Hd as Hdr. apply index_range in Hs as Hsr.
    unfold slot_at, drive_at; simpl. repeat split.
    + by apply index_store_eq.
    + by apply index_store_eq.
    + intros n Hn. apply index_store_ne; lia.
    + intros d Hn. apply index_store_ne; lia.
  - eexists. split; [reflexivity|]. by vm_compute.
Qed.

(** ** Sequences of operations and the volumes in the library *)

Section Conservation.
Local Open Scope list_scope.
Implicit Types (l : list Slot) (chgr : Changer).

(** Replacing the slot at an index: what was there leaves, what is put
    there comes. *)
Lemma serials_store l i old new :
  index l i = Some old →
  omap serial_of (store l i new) ++ option_list (serial_of old)
  ≡ₚ omap serial_of l ++ option_list (serial_of new).
Proof.
  intros [Hi Hl]%index_Some. unfold store.
  generalize dependent (Z.to_nat i). clear i Hi. intros i.
  revert i. induction l as [|x l IH]; intros [|i] Hl; try done.
  - simpl in Hl. injection Hl as ->. simpl.
    destruct (serial_of old), (serial_of new); simpl;
      rewrite ?app_nil_r, <- ?Permutation_cons_append; try done.
    apply perm_swap.
  - simpl in Hl. simpl. destruct (serial_of x); simpl.
    + f_equiv. by apply IH.
    + by apply IH.
Qed.

Lemma serials_store_put l i old new s :
  index l i = Some old → serial_of old = None → serial_of new = Some s →
  omap serial_of (store l i new) ≡ₚ s :: omap serial_of l.
Proof.
  intros Hi Ho Hn. pose proof (serials_store l i old new Hi) as H.
  rewrite Ho, Hn, app_nil_r in H. simpl in H.
  by rewrite H, <- Permutation_cons_append.
Qed.

Lemma serials_store_take l i old new s :
  index l i = Some old → serial_of old = Some s → serial_of new = None →
  s :: omap serial_of (store l i new) ≡ₚ omap serial_of l.
Proof.
  intros Hi Ho Hn. pose proof (serials_store l i old new Hi) as H.
  rewrite Ho, Hn, app_nil_r in H. simpl in H.
  by rewrite <- H, <- Permutation_cons_append.
Qed.

Lemma serials_app chgr :
  serials chgr = omap serial_of (drives chgr) ++ omap serial_of (slots chgr).
Proof. unfold serials. apply omap_app. Qed.

Lemma holds_volume_Some o :
  holds_volume o = true → ∃ slot vol, o = Some slot ∧ Vol slot = Some vol.
Proof.
  destruct o as [slot|]; [|done]. simpl. intros [vol Hv]%bool_decide_eq_true.
  by exists slot, vol.
Qed.

Lemma is_empty_Some o :
  is_empty o = true → ∃ slot, o = Some slot ∧ Vol slot = None.
Proof.
  destruct o as [slot|]; [|done]. simpl. intros Hv%bool_decide_eq_true.
  by exists slot.
Qed.

(** One permitted operation returns and keeps the serials. *)
Lemma permitted_exec o chgr :
  permitted o chgr = true →
  ∃ e chgr', exec o chgr = Returns (e, chgr') ∧ serials chgr' ≡ₚ serials chgr.
Proof.
  destruct o as [slotnum drivenum | slotnum drivenum | from to]; simpl.
  - intros [Hs Hd]%andb_true_iff.
    apply holds_volume_Some in Hs as (slot & vol & Hs & Hv).
    apply is_empty_Some in Hd as (drv & Hd & Hdv).
    eexists _, _. split; [by apply load_eq|].
    rewrite !serials_app. simpl.
    rewrite (serials_store_put (drives chgr) _ drv _ (Serial vol));
      [| done | |].
    + rewrite <- (serials_store_take (slots chgr) (slotnum - 1) slot
                   (set_Vol slot None) (Serial vol)); [| done | |].
      * simpl. by rewrite Permutation_middle.
      * unfold serial_of. by rewrite Hv.
      * done.
    + unfold serial_of. by rewrite Hdv.
    + unfold serial_of. simpl. by rewrite Hv.
  - intros [Hd Hs]%andb_true_iff.
    apply holds_volume_Some in Hd as (drv & vol & Hd & Hv).
    rewrite Hd in Hs. simpl in Hs.
    destruct (unload_dest slotnum drv) as [dest|] eqn:Hdest; [|done].
    apply is_empty_Some in Hs as (slot & Hs & Hsv).
    eexists _, _. split; [by eapply unload_eq|].
    rewrite !serials_app. simpl.
    rewrite (serials_store_put (slots chgr) _ slot _ (Serial vol));
      [| done | |].
    + rewrite <- (serials_store_take (drives chgr) drivenum drv
                   (set_Vol drv None) (Serial vol)); [| done | |].
      * simpl. by rewrite Permutation_middle.
      * unfold serial_of. by rewrite Hv.
      * done.
    + unfold serial_of. by rewrite Hsv.
    + unfold serial_of. simpl. by rewrite Hv.
  - intros [Ha Hb]%andb_true_iff.
    apply bool_decide_eq_true in Ha, Hb.
    destruct (slot_at_in_range _ _ Ha) as [src Hsrc].
    destruct (slot_at_in_range _ _ Hb) as [dst Hdst].
    destruct (Vol src) as [vol|] eqn:Hv.
    + destruct (Vol dst) as [vol'|] eqn:Hv'.
      * eexists _, _. split; [by eapply transfer_occupied|]. done.
      * eexists _, _. split; [by eapply transfer_moves|].
        assert (from ≠ to) by (intros ->; congruence).
        rewrite !serials_app. simpl. f_equiv.
        apply (Permutation_cons_inv (a := Serial vol)).
        rewrite (serials_store_take _ _ src _ (Serial vol)).
        -- apply (serials_store_put _ _ dst); [done | | done].
           unfold serial_of. by rewrite Hv'.
        -- unfold slot_at in *. rewrite index_store_ne; [done | | lia].
           apply index_range in Hdst. lia.
        -- unfold serial_of. by rewrite Hv.
        -- done.
    + eexists _, _. split; [by eapply transfer_no_volume|]. done.
Qed.
End Conservation.

(** C5. A sequence of [load], [unload] and [transfer] calls whose indices
    are in range and that makes none of the permissive overwrites runs to
    the end without a panic, and the serials in the drives and slots
    afterwards are the serials before, each as often as before: none is
    lost and none is doubled, so if no serial occurred twice before, none
    does after. *)
Theorem serials_conserved (ops : list op) (chgr : Changer) :
  all_permitted ops chgr = true →
  ∃ chgr',
    run ops chgr = Returns chgr'
    ∧ serials chgr' ≡ₚ serials chgr
    ∧ (NoDup (serials chgr) → NoDup (serials chgr')).
Proof.
  revert chgr. induction ops as [|o ops IH]; intros chgr; simpl.
  - intros _. by exists chgr.
  - intros [Hp Hrest]%andb_true_iff.
    destruct (permitted_exec o chgr Hp) as (e & chgr1 & Hexec & Hperm).
    rewrite Hexec in Hrest |- *.
    destruct (IH chgr1 Hrest) as (chgr' & Hrun & Hperm' & _).
    exists chgr'. split; [done|].
    assert (serials chgr' ≡ₚ serials chgr) as HP by (by rewrite Hperm').
    split; [done|]. intros Hnd. by rewrite HP.
Qed.

Lemma serials_conserved_witness :
  ∃ chgr',
    run [OpLoad 1 0; OpTransfer 2 17; OpTransfer 3 4; OpUnload 0 0;
         OpLoad 32 7; OpUnload 20 7] fixture = Returns chgr'
    ∧ serials chgr' ≡ₚ serials fixture
    ∧ (NoDup (serials fixture) → NoDup (serials chgr')).
Proof.
  apply (serials_conserved
           [OpLoad 1 0; OpTransfer 2 17; OpTransfer 3 4; OpUnload 0 0;
            OpLoad 32 7; OpUnload 20 7] fixture).
  vm_compute. reflexivity.
Defined.

(** ** Status and the errors of the parsers *)

(** C9. [Status] returns a [nil] error whenever [Do] does, whatever
    [params] and [elements] return.  On [bad_header_text], where [params]
    fails with the error of the header, [Status] returns an inventory with
    all four counts zero, the parsed drive and slot, and no error; the
    accessor [MaxDrives] on the same text does return the error.  On the
    mock of [New(8, 32, 4, 16)] it likewise returns zero counts with the
    mock's eight drives and no error. *)
Theorem Status_drops_header_error :
  (∀ (S : Type) (impl : list string → S → outcome (option string * option error * S))
     st status st',
     impl ["status"] st = Returns (status, None, st') →
     ∃ inventory, Changer.Status impl st = Returns (Some inventory, None, st'))
  ∧ params bad_header_text = Err header_error
  ∧ Changer.MaxDrives (canned bad_header_text) ()
    = Returns (-1, Some header_error, ())
  ∧ Changer.Status (canned bad_header_text) ()
    = Returns
        (Some
           {| MaxDrives := 0; NumSlots := 0; NumStorageSlots := 0;
              NumMailSlots := 0;
              Drives := [{| Num := 0; Typ := DataTransferSlot; Vol := None |}];
              Slots :=
                [{| Num := 1; Typ := StorageSlot;
                    Vol := Some {| Serial := "A00001L6"; Home := 1 |} |}] |},
         None, ())
  ∧ ∃ inventory,
      Changer.Status Do fixture = Returns (Some inventory, None, fixture)
      ∧ MaxDrives inventory = 0 ∧ NumSlots inventory = 0
      ∧ NumStorageSlots inventory = 0 ∧ NumMailSlots inventory = 0
      ∧ Drives inventory = drives fixture.
Proof.
  split; [|split; [|split; [|split]]].
  - intros S impl st status st' Hdo. unfold Changer.Status. rewrite Hdo.
    by eexists.
  - vm_compute. reflexivity.
  - vm_compute. reflexivity.
  - vm_compute. reflexivity.
  - eexists. split; [vm_compute; reflexivity|].
    repeat split; vm_compute; reflexivity.
Qed.

(** ** Strictness of the parsers *)






(** ** The commands of the mock *)

Lemma Atoi_Err s e : Atoi s = Err e → ∃ kind, e = NumError "Atoi" s kind.
Proof.
  unfold Atoi. destruct (parse_int s) as [kind|n]; [|done].
  intros [= <-]. by exists kind.
Qed.

(** C8, as the code has it.  [Do] answers "status" with the status text
    whatever arguments follow it.  For any other argument list that is
    not one of load, unload and transfer with exactly two arguments that
    [Atoi] accepts, [Do] returns an argument error and leaves the changer
    as it was.  For those three it runs the operation on the two integers. *)
Theorem Do_dispatch (args : list string) (chgr : Changer) :
  (∀ rest, args = "status" :: rest →
     Do args chgr = Returns (Some (status chgr), None, chgr))
  ∧ (head args ≠ Some "status" → ¬ two_int_command args →
     ∃ e, ArgumentError e ∧ Do args chgr = Returns (None, Some e, chgr))
  ∧ (∀ cmd a b x y,
       args = [cmd; a; b] → Atoi a = Ok x → Atoi b = Ok y →
       (cmd = "load" → Do args chgr = reply (load x y chgr))
       ∧ (cmd = "unload" → Do args chgr = reply (unload x y chgr))
       ∧ (cmd = "transfer" → Do args chgr = reply (transfer x y chgr))).
Proof.
  split; [|split].
  - intros rest ->. reflexivity.
  - intros Hstatus Hnot.
    destruct args as [|cmd rest].
    { eexists. split; [by left | done]. }
    unfold Do. destruct (String.eqb_spec cmd "status") as [->|Hcmd].
    { by destruct Hstatus. }
    destruct rest as [|a [|b [|c rest]]];
      try (eexists; split; [right; by left | done]).
    simpl. change (sub [cmd; a; b] 1) with a. change (sub [cmd; a; b] 2) with b.
    destruct (Atoi a) as [x|ea] eqn:Ha.
    2: { apply Atoi_Err in Ha as [k ->]. eexists. split; [|done].
         do 3 right. by eexists _, _. }
    destruct (Atoi b) as [y|eb] eqn:Hb.
    2: { apply Atoi_Err in Hb as [k ->]. eexists. split; [|done].
         do 3 right. by eexists _, _. }
    destruct (String.eqb_spec cmd "load") as [->|Hl].
    { destruct Hnot. exists "load", a, b, x, y. repeat split; auto. }
    destruct (String.eqb_spec cmd "unload") as [->|Hu].
    { destruct Hnot. exists "unload", a, b, x, y. repeat split; auto. }
    destruct (String.eqb_spec cmd "transfer") as [->|Ht].
    { destruct Hnot. exists "transfer", a, b, x, y. repeat split; auto. }
    eexists. split; [|done]. right. right. by left.
  - intros cmd a b x y -> Ha Hb. unfold Do.
    change (sub [cmd; a; b] 1) with a. change (sub [cmd; a; b] 2) with b.
    repeat split; intros ->; simpl; rewrite Ha, Hb; reflexivity.
Qed.

(** The claim of the spec fails on "status" with an argument after it:
    that is not a status command without arguments nor a command with two
    integers, and [Do] answers it with the status text and no error. *)
Lemma status_ignores_further_arguments :
  ["status"; "1"] ≠ ["status"]
  ∧ ¬ two_int_command ["status"; "1"]
  ∧ Do ["status"; "1"] fixture = Returns (Some (status fixture), None, fixture)
  ∧ ¬ ∃ e, Do ["status"; "1"] fixture = Returns (None, Some e, fixture).
Proof.
  split; [done|]. split.
  - intros (cmd & a & b & x & y & Heq & _). discriminate.
  - split; [reflexivity|]. intros [e He]. discriminate.
Qed.

(** ** What a match says about the text *)

#[local] Arguments String.append : simpl nomatch.

Lemma append_assoc (a b c : string) : (a ++ b) ++ c = a ++ (b ++ c).
Proof. induction a as [|x a IH]; simpl; [done | by rewrite IH]. Qed.

Lemma append_nil_r (a : string) : a ++ "" = a.
Proof. induction a as [|x a IH]; simpl; [done | by rewrite IH]. Qed.

Lemma all_chars_app f a b :
  all_chars f (a ++ b) = all_chars f a && all_chars f b.
Proof.
  induction a as [|x a IH]; simpl; [done|]. by rewrite IH, andb_assoc.
Qed.

(** A star that lets the match go on has eaten bytes of its class. *)
Lemma match_star_inv c s caps k res :
  match_star c s caps k = Some res →
  ∃ ds s', s = ds ++ s' ∧ all_chars (in_class c) ds = true
           ∧ k s' caps = Some res.
Proof.
  induction s as [|a s IH]; simpl.
  - intros H. by exists "", "".
  - destruct (in_class c a) eqn:Ha.
    + destruct (match_star c s caps k) as [r|] eqn:Hs.
      * intros [= ->]. destruct (IH eq_refl) as (ds & s' & -> & Hds & Hk).
        exists (String a ds), s'. simpl. by rewrite Ha, Hds.
      * intros H. by exists "", (String a s).
    + intros H. by exists "", (String a s).
Qed.

Lemma FindStringSubmatch_inv r s ms :
  FindStringSubmatch r s = Some ms →
  ∃ pre t res,
    s = pre ++ t ∧ match_here r t [] (λ s' caps, Some (s', caps)) = Some res.
Proof.
  induction s as [|a s IH]; simpl.
  - destruct (match_here r "" [] _) as [res|] eqn:H; [|done].
    intros _. by exists "", "", res.
  - destruct (match_here r (String a s) [] _) as [res|] eqn:H.
    + intros _. by exists "", (String a s), res.
    + intros (pre & t & res & -> & Ht)%IH. by exists (String a pre), t, res.
Qed.

Lemma strip_prefix_Some l s s' : strip_prefix l s = Some s' → s = l ++ s'.
Proof.
  revert s. induction l as [|a l IH]; intros s; simpl.
  - by intros [= ->].
  - destruct s as [|b s]; [done|].
    destruct (Ascii.eqb_spec b a) as [->|_]; [|done].
    intros ->%IH. reflexivity.
Qed.

(** ** Patterns as sequences of items *)

Lemma match_star_ext c s caps k k' :
  (∀ s' caps', k s' caps' = k' s' caps') →
  match_star c s caps k = match_star c s caps k'.
Proof.
  intros Hk. induction s as [|a s IH]; simpl; [apply Hk|].
  rewrite IH, Hk. reflexivity.
Qed.

Lemma match_here_ext r s caps k k' :
  (∀ s' caps', k s' caps' = k' s' caps') →
  match_here r s caps k = match_here r s caps k'.
Proof.
  revert s caps k k'. induction r as [|c|c|r1 IH1 r2 IH2|r IH];
    intros s caps k k' Hk; simpl.
  - apply Hk.
  - destruct s as [|a s]; [done|]. by rewrite Hk.
  - by apply match_star_ext.
  - apply IH1. intros s' caps'. by apply IH2.
  - apply IH. intros s' caps'. apply Hk.
Qed.

Lemma match_here_fold rs r s caps k :
  match_here (fold_left Cat rs r) s caps k
  = match_here r s caps (λ s' caps', match_list rs s' caps' k).
Proof.
  revert r k. induction rs as [|x rs IH]; intros r k; simpl.
  - reflexivity.
  - rewrite IH. reflexivity.
Qed.

Lemma match_list_app rs1 rs2 s caps k :
  match_list (rs1 ++ rs2) s caps k
  = match_list rs1 s caps (λ s' caps', match_list rs2 s' caps' k).
Proof.
  revert s caps. induction rs1 as [|r rs1 IH]; intros s caps; simpl.
  - reflexivity.
  - apply match_here_ext. intros s' caps'. apply IH.
Qed.

Lemma match_list_lit l s caps k :
  match_list ((λ a, One (CChar a)) <$> list_ascii_of_string l) s caps k
  = match strip_prefix l s with
    | Some s' => k s' caps
    | None => None
    end.
Proof.
  revert s. induction l as [|a l IH]; intros s; simpl; [reflexivity|].
  destruct s as [|b s]; [reflexivity|].
  destruct (Ascii.eqb b a); [apply IH | reflexivity].
Qed.

Lemma match_list_items items s caps k :
  match_list (items ≫= atoms) s caps k = match_items items s caps k.
Proof.
  revert s caps. induction items as [|it items IH]; intros s caps;
    [reflexivity|].
  change ((it :: items) ≫= atoms) with (atoms it ++ (items ≫= atoms))%list.
  rewrite match_list_app. destruct it as [l|c|c]; simpl.
  - rewrite match_list_lit. destruct (strip_prefix l s); [apply IH | done].
  - apply match_star_ext. intros s' caps'. apply IH.
  - apply match_star_ext. intros s' caps'. apply IH.
Qed.

(** Matching the pattern of a sequence of items is matching the items. *)
Lemma match_here_regex_of items s caps k :
  match_here (regex_of items) s caps k = match_items items s caps k.
Proof.
  unfold regex_of. rewrite match_here_fold. simpl. apply match_list_items.
Qed.

(** The six patterns as sequences of items. *)
Lemma hdrRegexp_items :
  hdrRegexp
  = regex_of [IStar CSpace; ILit "Storage Changer"; IStar CSpace;
              IGroup CAny; ILit ":"; IGroup CDigit; ILit " Drives, ";
              IGroup CDigit; ILit " Slots ("; IGroup CDigit;
              ILit " Import/Export )"].
Proof. reflexivity. Qed.

Lemma driveRegexp_items :
  driveRegexp
  = regex_of [ILit "Data Transfer Element "; IGroup CDigit; ILit ":";
              IGroup CAny].
Proof. reflexivity. Qed.

Lemma driveElementRegexp_items :
  driveElementRegexp
  = regex_of [ILit "Full (Storage Element "; IGroup CDigit;
              ILit " Loaded):VolumeTag = "; IGroup CAny].
Proof. reflexivity. Qed.

Lemma slotRegexp_items :
  slotRegexp
  = regex_of [IStar CSpace; ILit "Storage Element "; IGroup CDigit; ILit ":";
              IGroup CAny].
Proof. reflexivity. Qed.

Lemma mailSlotRegexp_items :
  mailSlotRegexp
  = regex_of [IStar CSpace; ILit "Storage Element "; IGroup CDigit;
              ILit " IMPORT/EXPORT:"; IGroup CAny].
Proof. reflexivity. Qed.

Lemma slotElementRegexp_items :
  slotElementRegexp = regex_of [ILit "Full :VolumeTag="; IGroup CAny].
Proof. reflexivity. Qed.

(** ** The shape of a header line *)

(** A line that [hdrRegexp] matches has, somewhere, an opening parenthesis
    followed by digits, if any, and then a blank and an [I]. *)
Lemma hdrRegexp_shape line ms :
  FindStringSubmatch hdrRegexp line = Some ms →
  ∃ pre ds post,
    line = pre ++ "(" ++ ds ++ " I" ++ post ∧ all_chars is_digit ds = true.
Proof.
  intros (pre & t & res & -> & H)%FindStringSubmatch_inv.
  rewrite hdrRegexp_items, match_here_regex_of in H.
  cbn [match_items] in H.
  apply match_star_inv in H as (ws1 & s1 & -> & _ & H).
  destruct (strip_prefix _ s1) as [s2|] eqn:Hs1; [|done].
  apply strip_prefix_Some in Hs1 as ->.
  apply match_star_inv in H as (ws2 & s3 & -> & _ & H).
  apply match_star_inv in H as (id & s4 & -> & _ & H).
  destruct (strip_prefix _ s4) as [s5|] eqn:Hs4; [|done].
  apply strip_prefix_Some in Hs4 as ->.
  apply match_star_inv in H as (ds1 & s6 & -> & _ & H).
  destruct (strip_prefix _ s6) as [s7|] eqn:Hs6; [|done].
  apply strip_prefix_Some in Hs6 as ->.
  apply match_star_inv in H as (ds2 & s8 & -> & _ & H).
  destruct (strip_prefix _ s8) as [s9|] eqn:Hs8; [|done].
  apply strip_prefix_Some in Hs8 as ->.
  apply match_star_inv in H as (ds & s10 & -> & Hds & H).
  destruct (strip_prefix _ s10) as [post|] eqn:Hs10; [|done].
  apply strip_prefix_Some in Hs10 as ->.
  exists (pre ++ ws1 ++ "Storage Changer" ++ ws2 ++ id ++ ":" ++ ds1
          ++ " Drives, " ++ ds2 ++ " Slots "),
    ds, ("mport/Export )" ++ post).
  split; [|exact Hds]. rewrite !append_assoc. reflexivity.
Qed.

Lemma scan_app q a b : scan q (a ++ b) = scan (scan q a) b.
Proof. revert q. induction a as [|x a IH]; intros q; simpl; [done | apply IH]. Qed.

Lemma scan_Found s : scan Found s = Found.
Proof. induction s; simpl; done. Qed.

Lemma scan_digits ds :
  all_chars is_digit ds = true → scan Open ds = Open.
Proof.
  induction ds as [|a ds IH]; simpl; [done|].
  intros [Ha Hds]%andb_true_iff. rewrite Ha.
  destruct (Ascii.eqb a "("); by apply IH.
Qed.

Lemma scan_shape q pre ds post :
  all_chars is_digit ds = true →
  scan q (pre ++ "(" ++ ds ++ " I" ++ post) = Found.
Proof.
  intros Hds. rewrite scan_app. generalize (scan q pre). intros q'.
  change ("(" ++ ds ++ " I" ++ post) with (String "(" (ds ++ " I" ++ post)).
  cbn [scan]. destruct q'; simpl; rewrite ?scan_Found; try done;
    rewrite scan_app, scan_digits by done; simpl; apply scan_Found.
Qed.

Lemma uint_numeric d :
  all_chars is_numeric (NilEmpty.string_of_uint d) = true.
Proof. induction d; simpl; done. Qed.

Lemma Itoa_numeric n : all_chars is_numeric (Itoa n) = true.
Proof.
  unfold Itoa. destruct (Z.to_int n) as [d|d]; simpl;
    destruct d; try done; simpl; apply uint_numeric.
Qed.

Lemma scan_numeric_Idle n :
  all_chars is_numeric n = true → scan Idle n = Idle.
Proof.
  induction n as [|a n IH]; simpl; [done|].
  intros [Ha Hn]%andb_true_iff.
  destruct (Ascii.eqb_spec a "(") as [->|_]; [done|]. by apply IH.
Qed.

Lemma scan_numeric_Blank n tail :
  all_chars is_numeric n = true →
  scan Blank (n ++ " " ++ tail) = scan Idle tail.
Proof.
  destruct n as [|a n]; simpl; [done|].
  intros [Ha Hn]%andb_true_iff.
  destruct (Ascii.eqb_spec a "(") as [->|_]; [done|].
  destruct (Ascii.eqb_spec a "I") as [->|_]; [done|].
  rewrite scan_app, scan_numeric_Idle by done. done.
Qed.

Lemma scan_header_line a b c :
  all_chars is_numeric a = true → all_chars is_numeric b = true →
  all_chars is_numeric c = true →
  scan Idle (header_line a b c) = Idle.
Proof.
  intros Ha Hb Hc. unfold header_line.
  rewrite scan_app.
  change (scan Idle "  Storage Changer /dev/mock:") with Idle.
  rewrite scan_app, scan_numeric_Idle by exact Ha.
  rewrite scan_app. change (scan Idle " Drives, ") with Idle.
  rewrite scan_app, scan_numeric_Idle by exact Hb.
  rewrite scan_app. change (scan Idle " Slots ( ") with Blank.
  change (c ++ " Import/Export )") with (c ++ " " ++ "Import/Export )").
  rewrite scan_numeric_Blank by exact Hc. reflexivity.
Qed.

Lemma header_line_no_match a b c :
  all_chars is_numeric a = true → all_chars is_numeric b = true →
  all_chars is_numeric c = true →
  FindStringSubmatch hdrRegexp (header_line a b c) = None.
Proof.
  intros Ha Hb Hc.
  destruct (FindStringSubmatch hdrRegexp (header_line a b c)) as [ms|] eqn:H;
    [exfalso | reflexivity].
  apply hdrRegexp_shape in H as (pre & ds & post & Heq & Hds).
  pose proof (scan_shape Idle pre ds post Hds) as Hscan.
  rewrite <- Heq, scan_header_line in Hscan by assumption.
  discriminate Hscan.
Qed.

(** ** The first line of what the mock writes *)

Lemma raw_lines_cons l rest :
  all_chars not_newline l = true →
  raw_lines (l ++ nl ++ rest) = l :: raw_lines rest.
Proof.
  induction l as [|x l IH]; simpl in *.
  - reflexivity.
  - intros [Hx Hl]%andb_true_iff. unfold not_newline in Hx.
    apply negb_true_iff in Hx. rewrite Hx, IH by exact Hl. reflexivity.
Qed.

Lemma dropCR_app s t : t ≠ "" → dropCR (s ++ t) = s ++ dropCR t.
Proof.
  intros Ht. induction s as [|x s IH]; simpl; [reflexivity|].
  rewrite <- IH. destruct (s ++ t) eqn:Hst; [|reflexivity].
  destruct s; [simpl in Hst; contradiction | discriminate].
Qed.

Lemma numeric_not_newline n :
  all_chars is_numeric n = true → all_chars not_newline n = true.
Proof.
  induction n as [|a n IH]; simpl; [done|].
  intros [Ha Hn]%andb_true_iff. rewrite IH by exact Hn.
  destruct (Ascii.eqb_spec a "010") as [->|Hne]; [discriminate Ha|].
  unfold not_newline. apply Ascii.eqb_neq in Hne. by rewrite Hne.
Qed.

Lemma header_line_not_newline a b c :
  all_chars is_numeric a = true → all_chars is_numeric b = true →
  all_chars is_numeric c = true →
  all_chars not_newline (header_line a b c) = true.
Proof.
  intros Ha Hb Hc. unfold header_line.
  rewrite !all_chars_app.
  rewrite (numeric_not_newline a), (numeric_not_newline b),
    (numeric_not_newline c) by assumption.
  reflexivity.
Qed.

Lemma header_line_dropCR a b c : dropCR (header_line a b c) = header_line a b c.
Proof.
  assert (header_line a b c
          = ("  Storage Changer /dev/mock:" ++ a ++ " Drives, " ++ b
             ++ " Slots ( " ++ c) ++ " Import/Export )") as ->.
  { unfold header_line. rewrite !append_assoc. reflexivity. }
  rewrite dropCR_app by discriminate. reflexivity.
Qed.

Lemma header_eq chgr :
  header chgr
  = header_line (Itoa (numDrives chgr))
      (Itoa (wrap (numStorageSlots chgr + numMailSlots chgr)))
      (Itoa (numMailSlots chgr))
    ++ nl.
Proof. unfold header, header_line. rewrite !append_assoc. reflexivity. Qed.

Lemma status_first_line chgr :
  ∃ rest,
    NewScanner (status chgr)
    = header_line (Itoa (numDrives chgr))
        (Itoa (wrap (numStorageSlots chgr + numMailSlots chgr)))
        (Itoa (numMailSlots chgr))
      :: rest.
Proof.
  unfold NewScanner, status. rewrite header_eq, append_assoc.
  rewrite raw_lines_cons by (apply header_line_not_newline; apply Itoa_numeric).
  by eexists.
Qed.

(** Whatever the mock holds, [params] fails on its status text. *)
Lemma params_status_fails chgr : is_Err (params (status chgr)).
Proof.
  destruct (status_first_line chgr) as [rest Hscan].
  unfold params. rewrite Hscan. unfold token.
  destruct (_ <? _)%N; [|by eexists].
  rewrite header_line_dropCR, header_line_no_match by apply Itoa_numeric.
  by eexists.
Qed.

(** ** Numbers as text and back *)

Lemma uint_value_ge d acc : 0 ≤ acc → acc ≤ uint_value d acc.
Proof.
  revert acc. induction d; intros acc Hacc; simpl; [lia|..];
    (etransitivity; [|apply IHd]; lia).
Qed.

Lemma parse_uint_value d acc :
  0 ≤ acc → uint_value d acc < 2 ^ 64 →
  parse_uint (NilEmpty.string_of_uint d) acc = inr (uint_value d acc).
Proof.
  revert acc. induction d; intros acc Hacc Hlt; [done|..].
  all: cbn [uint_value NilEmpty.string_of_uint parse_uint] in Hlt |- *.
  all: match goal with
       | H : uint_value ?d' (?a * 10 + ?k) < _ |- _ =>
           pose proof (uint_value_ge d' (a * 10 + k) ltac:(lia)) as Hge
       end.
  all: change (2 ^ 64) with 18446744073709551616 in *.
  all: change ((18446744073709551616 - 1) `div` 10 + 1)
         with 1844674407370955162.
  all: match goal with
       | |- context [is_digit ?c] => change (is_digit c) with true
       end; cbv iota.
  all: match goal with
       | |- context [digit_val ?c] =>
           let v := eval vm_compute in (digit_val c) in
           change (digit_val c) with v
       end.
  all: destruct (Z.geb_spec acc 1844674407370955162); [lia|].
  all: rewrite Z.mod_small by lia.
  all: match goal with
       | |- context [?a <? ?b] => destruct (Z.ltb_spec a b); [lia|]
       end.
  all: apply IHd; lia.
Qed.

Lemma of_uint_acc_value d acc :
  Z.pos (Pos.of_uint_acc d acc) = uint_value d (Z.pos acc).
Proof.
  revert acc. induction d; intros acc; simpl; [done|..];
    rewrite IHd; f_equal; lia.
Qed.

Lemma of_uint_value d : Z.of_N (Pos.of_uint d) = uint_value d 0.
Proof.
  induction d; simpl; [done | exact IHd |..];
    rewrite of_uint_acc_value; reflexivity.
Qed.

Lemma to_uint_value p : uint_value (Pos.to_uint p) 0 = Z.pos p.
Proof.
  rewrite <- of_uint_value, DecimalPos.Unsigned.of_to. reflexivity.
Qed.

Lemma to_uint_not_Nil p : Pos.to_uint p ≠ Decimal.Nil.
Proof.
  intros H. pose proof (to_uint_value p) as Hv. rewrite H in Hv. done.
Qed.

Lemma string_of_uint_digits d :
  all_chars is_digit (NilEmpty.string_of_uint d) = true.
Proof. induction d; simpl; done. Qed.

Lemma Itoa_pos p : Itoa (Z.pos p) = NilEmpty.string_of_uint (Pos.to_uint p).
Proof.
  unfold Itoa. simpl. destruct (Pos.to_uint p) eqn:H; try reflexivity.
  by apply to_uint_not_Nil in H.
Qed.

(** A number that is not negative is written with digits only. *)
Lemma Itoa_digits n : 0 ≤ n → all_chars is_digit (Itoa n) = true.
Proof.
  destruct n as [|p|p]; [reflexivity | | lia]. intros _.
  rewrite Itoa_pos. apply string_of_uint_digits.
Qed.

Lemma parse_int_digits s :
  s ≠ "" → all_chars is_digit s = true →
  parse_int s =
    match parse_uint s 0 with
    | inl e => inl e
    | inr un => if un >=? 2 ^ 63 then inl ErrRange else inr un
    end.
Proof.
  destruct s as [|c s]; [done|]. intros _ Hs. simpl in Hs.
  apply andb_true_iff in Hs as [Hc _]. unfold parse_int.
  destruct (Ascii.eqb_spec c "-") as [->|_]; [discriminate Hc|].
  destruct (Ascii.eqb_spec c "+") as [->|_]; [discriminate Hc|].
  simpl. destruct (parse_uint (String c s) 0); reflexivity.
Qed.

(** [Atoi] reads back what [Itoa] wrote for an [int] that is not negative. *)
Lemma Atoi_Itoa n : 0 ≤ n < 2 ^ 63 → Atoi (Itoa n) = Ok n.
Proof.
  destruct n as [|p|p]; [reflexivity | | lia]. intros [_ Hn].
  unfold Atoi. rewrite parse_int_digits.
  - rewrite Itoa_pos, parse_uint_value, to_uint_value; try lia.
    + destruct (Z.geb_spec (Z.pos p) (2 ^ 63)); [lia | reflexivity].
    + rewrite to_uint_value. lia.
  - rewrite Itoa_pos. pose proof (to_uint_not_Nil p).
    destruct (Pos.to_uint p); done.
  - by apply Itoa_digits.
Qed.

(** The length of what [Itoa] writes. *)
Lemma nb_digits_double d :
  (Decimal.nb_digits (Decimal.Little.double d) ≤ S (Decimal.nb_digits d)
   ∧ Decimal.nb_digits (Decimal.Little.succ_double d) ≤ S (Decimal.nb_digits d))%nat.
Proof. induction d; simpl; lia. Qed.

Lemma nb_digits_to_little_uint p :
  (Decimal.nb_digits (Pos.to_little_uint p) ≤ Pos.size_nat p)%nat.
Proof.
  induction p as [p IH|p IH|]; simpl; [| |lia].
  - pose proof (nb_digits_double (Pos.to_little_uint p)). lia.
  - pose proof (nb_digits_double (Pos.to_little_uint p)). lia.
Qed.

Lemma size_nat_bound p n : Z.pos p < 2 ^ Z.of_nat n → (Pos.size_nat p ≤ n)%nat.
Proof.
  revert n. induction p as [p IH|p IH|]; intros n Hp; simpl.
  - destruct n as [|n]; [simpl in Hp; lia|].
    rewrite Nat2Z.inj_succ, Z.pow_succ_r in Hp by lia.
    specialize (IH n). lia.
  - destruct n as [|n]; [simpl in Hp; lia|].
    rewrite Nat2Z.inj_succ, Z.pow_succ_r in Hp by lia.
    specialize (IH n). lia.
  - destruct n as [|n]; [simpl in Hp; lia | lia].
Qed.

Lemma length_string_of_uint d :
  String.length (NilEmpty.string_of_uint d) = Decimal.nb_digits d.
Proof. induction d; simpl; congruence. Qed.

Lemma Itoa_length n :
  - 2 ^ 64 < n < 2 ^ 64 → (String.length (Itoa n) ≤ 65)%nat.
Proof.
  intros Hn.
  assert (∀ p, Z.pos p < 2 ^ 64 →
               (String.length (NilEmpty.string_of_uint (Pos.to_uint p)) ≤ 64)%nat)
    as Hpos.
  { intros p Hp. rewrite length_string_of_uint. unfold Pos.to_uint.
    rewrite DecimalFacts.nb_digits_rev.
    pose proof (nb_digits_to_little_uint p).
    pose proof (size_nat_bound p 64 Hp). lia. }
  destruct n as [|p|p]; [simpl; lia | |].
  - rewrite Itoa_pos. specialize (Hpos p). lia.
  - unfold Itoa. simpl. pose proof (to_uint_not_Nil p).
    specialize (Hpos p ltac:(lia)).
    destruct (Pos.to_uint p); try done; simpl in *; lia.
Qed.

(** ** Matches that succeed *)

Lemma strip_prefix_app l s : strip_prefix l (l ++ s) = Some s.
Proof.
  induction l as [|a l IH]; simpl; [reflexivity|].
  by rewrite Ascii.eqb_refl.
Qed.

Lemma length_append a b :
  String.length (a ++ b) = (String.length a + String.length b)%nat.
Proof. induction a as [|x a IH]; simpl; [done | by rewrite IH]. Qed.

Lemma substring_prefix a b : substring 0 (String.length a) (a ++ b) = a.
Proof.
  induction a as [|x a IH]; simpl; [by destruct b | by rewrite IH].
Qed.

Lemma consumed_app a b : consumed (a ++ b) b = a.
Proof.
  unfold consumed. rewrite length_append.
  replace (String.length a + String.length b - String.length b)%nat
    with (String.length a) by lia.
  apply substring_prefix.
Qed.

Lemma consumed_nil s : consumed s "" = s.
Proof. rewrite <- (append_nil_r s) at 1. apply consumed_app. Qed.

Lemma match_star_greedy c ds rest caps k :
  all_chars (in_class c) ds = true → stops c rest →
  is_Some (k rest caps) →
  match_star c (ds ++ rest) caps k = k rest caps.
Proof.
  intros Hds Hrest [r Hk]. induction ds as [|a ds IH]; simpl.
  - destruct rest as [|b rest]; simpl in *; [done|]. by rewrite Hrest.
  - simpl in Hds. apply andb_true_iff in Hds as [Ha Hds].
    rewrite Ha, IH by done. by rewrite Hk.
Qed.

Lemma FindStringSubmatch_here r s rest caps :
  match_here r s [] (λ s' caps, Some (s', caps)) = Some (rest, caps) →
  FindStringSubmatch r s = Some (consumed s rest :: caps).
Proof. intros H. destruct s; simpl; by rewrite H. Qed.
Lemma match_star_upto c ds rest caps k r :
  all_chars (in_class c) ds = true → stops c rest →
  k rest caps = Some r →
  match_star c (ds ++ rest) caps k = Some r.
Proof.
  intros Hds Hrest Hk. rewrite match_star_greedy; by try eexists.
Qed.

Lemma match_star_all c s caps k r :
  all_chars (in_class c) s = true → k "" caps = Some r →
  match_star c s caps k = Some r.
Proof.
  intros Hs Hk. rewrite <- (append_nil_r s).
  by apply match_star_upto.
Qed.

Lemma find_drive n body :
  all_chars is_digit n = true → all_chars not_newline body = true →
  FindStringSubmatch driveRegexp ("Data Transfer Element " ++ n ++ ":" ++ body)
  = Some ["Data Transfer Element " ++ n ++ ":" ++ body; n; body].
Proof.
  intros Hn Hbody.
  rewrite (FindStringSubmatch_here _ _ "" [n; body]);
    [by rewrite consumed_nil|].
  rewrite driveRegexp_items, match_here_regex_of.
  cbn [match_items]. rewrite strip_prefix_app.
  apply match_star_upto; [exact Hn | reflexivity |].
  rewrite consumed_app. rewrite (strip_prefix_app ":" body).
  apply match_star_all; [exact Hbody|].
  by rewrite consumed_nil.
Qed.

Lemma find_drive_element n serial :
  all_chars is_digit n = true → all_chars not_newline serial = true →
  FindStringSubmatch driveElementRegexp
    ("Full (Storage Element " ++ n ++ " Loaded):VolumeTag = " ++ serial)
  = Some ["Full (Storage Element " ++ n ++ " Loaded):VolumeTag = " ++ serial;
          n; serial].
Proof.
  intros Hn Hserial.
  rewrite (FindStringSubmatch_here _ _ "" [n; serial]);
    [by rewrite consumed_nil|].
  rewrite driveElementRegexp_items, match_here_regex_of.
  cbn [match_items]. rewrite strip_prefix_app.
  apply match_star_upto; [exact Hn | reflexivity |].
  rewrite consumed_app.
  rewrite (strip_prefix_app " Loaded):VolumeTag = " serial).
  apply match_star_all; [exact Hserial|].
  by rewrite consumed_nil.
Qed.

Lemma find_slot_element serial :
  all_chars not_newline serial = true →
  FindStringSubmatch slotElementRegexp ("Full :VolumeTag=" ++ serial)
  = Some ["Full :VolumeTag=" ++ serial; serial].
Proof.
  intros Hserial.
  rewrite (FindStringSubmatch_here _ _ "" [serial]);
    [by rewrite consumed_nil|].
  rewrite slotElementRegexp_items, match_here_regex_of.
  cbn [match_items]. rewrite strip_prefix_app.
  apply match_star_all; [exact Hserial|].
  by rewrite consumed_nil.
Qed.

Lemma find_slot n body :
  all_chars is_digit n = true → all_chars not_newline body = true →
  FindStringSubmatch slotRegexp ("      Storage Element " ++ n ++ ":" ++ body)
  = Some ["      Storage Element " ++ n ++ ":" ++ body; n; body].
Proof.
  intros Hn Hbody.
  rewrite (FindStringSubmatch_here _ _ "" [n; body]);
    [by rewrite consumed_nil|].
  rewrite slotRegexp_items, match_here_regex_of.
  cbn [match_items].
  change ("      Storage Element " ++ n ++ ":" ++ body)
    with ("      " ++ "Storage Element " ++ n ++ ":" ++ body).
  apply match_star_upto; [reflexivity | reflexivity |].
  rewrite strip_prefix_app.
  apply match_star_upto; [exact Hn | reflexivity |].
  rewrite consumed_app. rewrite (strip_prefix_app ":" body).
  apply match_star_all; [exact Hbody|].
  by rewrite consumed_nil.
Qed.

Lemma find_mail_slot n body :
  all_chars is_digit n = true → all_chars not_newline body = true →
  FindStringSubmatch mailSlotRegexp
    ("      Storage Element " ++ n ++ " IMPORT/EXPORT:" ++ body)
  = Some ["      Storage Element " ++ n ++ " IMPORT/EXPORT:" ++ body; n; body].
Proof.
  intros Hn Hbody.
  rewrite (FindStringSubmatch_here _ _ "" [n; body]);
    [by rewrite consumed_nil|].
  rewrite mailSlotRegexp_items, match_here_regex_of.
  cbn [match_items].
  change ("      Storage Element " ++ n ++ " IMPORT/EXPORT:" ++ body)
    with ("      " ++ "Storage Element " ++ n ++ " IMPORT/EXPORT:" ++ body).
  apply match_star_upto; [reflexivity | reflexivity |].
  rewrite strip_prefix_app.
  apply match_star_upto; [exact Hn | reflexivity |].
  rewrite consumed_app. rewrite (strip_prefix_app " IMPORT/EXPORT:" body).
  apply match_star_all; [exact Hbody|].
  by rewrite consumed_nil.
Qed.

(** ** Matches that fail *)

Lemma all_chars_impl (f g : ascii → bool) s :
  (∀ a, f a = true → g a = true) →
  all_chars f s = true → all_chars g s = true.
Proof.
  intros Hfg. induction s as [|a s IH]; simpl; [done|].
  intros [Ha Hs]%andb_true_iff. by rewrite Hfg, IH.
Qed.

(** A line without a [D] is no drive line. *)
Lemma find_drive_none line :
  all_chars not_D line = true → FindStringSubmatch driveRegexp line = None.
Proof.
  intros Hline.
  destruct (FindStringSubmatch driveRegexp line) as [ms|] eqn:H;
    [exfalso | reflexivity].
  apply FindStringSubmatch_inv in H as (pre & t & res & -> & H).
  rewrite driveRegexp_items, match_here_regex_of in H.
  cbn [match_items] in H.
  destruct (strip_prefix _ t) as [t'|] eqn:Ht; [|done].
  apply strip_prefix_Some in Ht as ->.
  rewrite all_chars_app in Hline. apply andb_true_iff in Hline as [_ Hline].
  discriminate Hline.
Qed.

(** A line that [slotRegexp] matches has, somewhere, a [t], a blank,
    digits, if any, and a colon: the end of the pattern's literal, its
    first group and the colon after it. *)
Lemma slotRegexp_shape line ms :
  FindStringSubmatch slotRegexp line = Some ms →
  ∃ pre ds post,
    line = pre ++ "t " ++ ds ++ ":" ++ post ∧ all_chars is_digit ds = true.
Proof.
  intros (pre & t & res & -> & H)%FindStringSubmatch_inv.
  rewrite slotRegexp_items, match_here_regex_of in H.
  cbn [match_items] in H.
  apply match_star_inv in H as (ws & s1 & -> & _ & H).
  destruct (strip_prefix _ s1) as [s2|] eqn:Hs1; [|done].
  apply strip_prefix_Some in Hs1 as ->.
  apply match_star_inv in H as (ds & s3 & -> & Hds & H).
  destruct (strip_prefix _ s3) as [s4|] eqn:Hs3; [|done].
  apply strip_prefix_Some in Hs3 as ->.
  exists (pre ++ ws ++ "Storage Elemen"), ds, s4. split; [|exact Hds].
  rewrite !append_assoc. reflexivity.
Qed.

Lemma colon_scan_app q a b :
  colon_scan q (a ++ b) = colon_scan (colon_scan q a) b.
Proof.
  revert q. induction a as [|x a IH]; intros q; simpl; [done | apply IH].
Qed.

Lemma colon_scan_Found s : colon_scan CFound s = CFound.
Proof. induction s; simpl; done. Qed.

Lemma colon_scan_digits ds :
  all_chars is_digit ds = true → colon_scan CNum ds = CNum.
Proof.
  induction ds as [|a ds IH]; simpl; [done|].
  intros [Ha Hds]%andb_true_iff. rewrite Ha.
  destruct (Ascii.eqb_spec a "t") as [->|_]; [discriminate Ha|]. by apply IH.
Qed.

Lemma colon_scan_shape q pre ds post :
  all_chars is_digit ds = true →
  colon_scan q (pre ++ "t " ++ ds ++ ":" ++ post) = CFound.
Proof.
  intros Hds. rewrite colon_scan_app. generalize (colon_scan q pre).
  intros q'. rewrite (colon_scan_app _ "t ").
  assert (colon_scan q' "t " = CNum ∨ colon_scan q' "t " = CFound) as [-> | ->]
    by (destruct q'; simpl; auto).
  - rewrite colon_scan_app, colon_scan_digits by exact Hds.
    simpl. apply colon_scan_Found.
  - apply colon_scan_Found.
Qed.

Lemma colon_scan_no_t s :
  all_chars not_t s = true → colon_scan CIdle s = CIdle.
Proof.
  induction s as [|a s IH]; simpl; [done|].
  intros [Ha Hs]%andb_true_iff. unfold not_t in Ha.
  apply negb_true_iff in Ha. rewrite Ha. by apply IH.
Qed.

(** A mail slot line is no storage slot line.  The text after the colon
    is [Empty] or has no [t]. *)
Lemma find_slot_none n body :
  all_chars is_digit n = true →
  body = "Empty" ∨ all_chars not_t body = true →
  FindStringSubmatch slotRegexp
    ("      Storage Element " ++ n ++ " IMPORT/EXPORT:" ++ body)
  = None.
Proof.
  intros Hn Hbody.
  destruct (FindStringSubmatch slotRegexp _) as [ms|] eqn:H;
    [exfalso | reflexivity].
  apply slotRegexp_shape in H as (pre & ds & post & Heq & Hds).
  pose proof (colon_scan_shape CIdle pre ds post Hds) as Hscan.
  rewrite <- Heq in Hscan. clear Heq.
  rewrite colon_scan_app in Hscan.
  change (colon_scan CIdle "      Storage Element ") with CNum in Hscan.
  rewrite colon_scan_app, colon_scan_digits in Hscan by exact Hn.
  rewrite colon_scan_app in Hscan.
  change (colon_scan CNum " IMPORT/EXPORT:") with CIdle in Hscan.
  destruct Hbody as [-> | Hbody].
  - discriminate Hscan.
  - rewrite colon_scan_no_t in Hscan by exact Hbody. discriminate Hscan.
Qed.

(** ** The lines of the mock, parsed *)

Lemma serial_char_not_newline a : serial_char a = true → not_newline a = true.
Proof. destruct a as [[] [] [] [] [] [] [] []]; vm_compute; congruence. Qed.
Lemma serial_char_not_CR a : serial_char a = true → not_CR a = true.
Proof. destruct a as [[] [] [] [] [] [] [] []]; vm_compute; congruence. Qed.
Lemma serial_char_not_D a : serial_char a = true → not_D a = true.
Proof. destruct a as [[] [] [] [] [] [] [] []]; vm_compute; congruence. Qed.
Lemma serial_char_not_t a : serial_char a = true → not_t a = true.
Proof. destruct a as [[] [] [] [] [] [] [] []]; vm_compute; congruence. Qed.
Lemma numeric_serial_char a : is_numeric a = true → serial_char a = true.
Proof. destruct a as [[] [] [] [] [] [] [] []]; vm_compute; congruence. Qed.
Lemma digit_numeric a : is_digit a = true → is_numeric a = true.
Proof. destruct a as [[] [] [] [] [] [] [] []]; vm_compute; congruence. Qed.

Lemma dropCR_plain s : all_chars not_CR s = true → dropCR s = s.
Proof.
  induction s as [|a s IH]; [done|]. cbn [all_chars].
  intros [Ha Hs]%andb_true_iff. cbn [dropCR]. destruct s as [|b s].
  - unfold not_CR in Ha. apply negb_true_iff in Ha. by rewrite Ha.
  - by rewrite IH.
Qed.

Lemma token_plain l :
  all_chars not_CR l = true → (String.length l ≤ 1000)%nat →
  token l = Some l.
Proof.
  intros Hl Hlen. unfold token.
  destruct (N.ltb_spec (N.of_nat (String.length l)) 65536); [|lia].
  by rewrite dropCR_plain.
Qed.

Lemma sub_1 a b l : sub (a :: b :: l) 1 = b.
Proof. reflexivity. Qed.
Lemma sub_2 a b c l : sub (a :: b :: c :: l) 2 = c.
Proof. reflexivity. Qed.

Lemma bind_Ok {A B} (a : A) (f : A → result B) : (Ok a ≫= f) = f a.
Proof. reflexivity. Qed.

Lemma Volume_eta v : {| Serial := Serial v; Home := Home v |} = v.
Proof. by destruct v. Qed.

Lemma vol_serial_not_newline v :
  vol_ok v → all_chars not_newline (Serial v) = true.
Proof.
  intros [H _]. eapply all_chars_impl; [apply serial_char_not_newline | done].
Qed.

Lemma digits_not_newline n :
  all_chars is_digit n = true → all_chars not_newline n = true.
Proof.
  apply all_chars_impl. intros a Ha.
  by apply serial_char_not_newline, numeric_serial_char, digit_numeric.
Qed.

Lemma element_line_drive i drv elems :
  Z.of_nat i < 2 ^ 63 → Typ drv = DataTransferSlot → opt_vol_ok (Vol drv) →
  element_line (drive_core i drv) elems
  = Ok (append_slot "transfer"
          {| Num := Z.of_nat i; Typ := DataTransferSlot; Vol := Vol drv |}
          elems).
Proof.
  intros Hi Htyp Hvol. unfold element_line, drive_core, mtxSlotString.
  rewrite Htyp. destruct (Vol drv) as [v|].
  - assert (all_chars is_digit (Itoa (Home v)) = true) as Hhome
      by (apply Itoa_digits; apply Hvol).
    rewrite find_drive; [| apply Itoa_digits; lia |].
    2: { rewrite !all_chars_app, vol_serial_not_newline by done.
         rewrite (digits_not_newline _ Hhome). reflexivity. }
    rewrite sub_1, sub_2, Atoi_Itoa, bind_Ok by lia.
    change (String.eqb _ "Empty") with false. cbn [negb].
    rewrite find_drive_element;
      [| exact Hhome | by apply vol_serial_not_newline].
    rewrite sub_1, sub_2, Atoi_Itoa, !bind_Ok by apply Hvol.
    unfold set_Vol. cbn [Num Typ]. by rewrite Volume_eta.
  - rewrite find_drive; [| apply Itoa_digits; lia | reflexivity].
    rewrite sub_1, sub_2, Atoi_Itoa, bind_Ok by lia.
    reflexivity.
Qed.

Lemma slot_body_not_D (o : option Volume) :
  opt_vol_ok o →
  all_chars not_D
    match o with
    | Some vol => "Full :VolumeTag=" ++ Serial vol
    | None => "Empty"
    end = true.
Proof.
  destruct o as [v|]; [|reflexivity]. intros [H _].
  rewrite all_chars_app.
  rewrite (all_chars_impl serial_char not_D _ serial_char_not_D H).
  reflexivity.
Qed.

Lemma slot_body_not_newline (o : option Volume) :
  opt_vol_ok o →
  all_chars not_newline
    match o with
    | Some vol => "Full :VolumeTag=" ++ Serial vol
    | None => "Empty"
    end = true.
Proof.
  destruct o as [v|]; [|reflexivity]. intros H.
  rewrite all_chars_app, vol_serial_not_newline by exact H. reflexivity.
Qed.

Lemma digits_not_D n : all_chars is_digit n = true → all_chars not_D n = true.
Proof.
  apply all_chars_impl. intros a Ha.
  by apply serial_char_not_D, numeric_serial_char, digit_numeric.
Qed.

Lemma element_line_storage slot elems :
  Typ slot = StorageSlot → 0 ≤ Num slot < 2 ^ 63 → opt_vol_ok (Vol slot) →
  element_line (slot_core slot) elems
  = Ok (append_slot "storage"
          {| Num := Num slot; Typ := StorageSlot;
             Vol := rehome (Num slot) <$> Vol slot |}
          elems).
Proof.
  intros Htyp Hnum Hvol. unfold element_line, slot_core, mtxSlotString.
  rewrite Htyp.
  assert (all_chars is_digit (Itoa (Num slot)) = true) as Hn
    by (apply Itoa_digits; lia).
  rewrite find_drive_none.
  2: { rewrite !all_chars_app, (digits_not_D _ Hn), slot_body_not_D by done.
       by destruct (Typ slot). }
  change ("" ++ ":" ++ ?b) with (":" ++ b).
  rewrite find_slot by (by try apply slot_body_not_newline).
  rewrite sub_1, sub_2, Atoi_Itoa, bind_Ok by lia.
  destruct (Vol slot) as [v|]; [|reflexivity].
  change (String.eqb _ "Empty") with false. cbn [negb].
  rewrite find_slot_element by (by apply vol_serial_not_newline).
  reflexivity.
Qed.

Lemma element_line_mail slot elems :
  Typ slot = MailSlot → 0 ≤ Num slot < 2 ^ 63 → opt_vol_ok (Vol slot) →
  element_line (slot_core slot) elems
  = Ok (append_slot "mail"
          {| Num := Num slot; Typ := MailSlot;
             Vol := rehome (Num slot) <$> Vol slot |}
          elems).
Proof.
  intros Htyp Hnum Hvol. unfold element_line, slot_core, mtxSlotString.
  rewrite Htyp.
  assert (all_chars is_digit (Itoa (Num slot)) = true) as Hn
    by (apply Itoa_digits; lia).
  rewrite find_drive_none.
  2: { rewrite !all_chars_app, (digits_not_D _ Hn), slot_body_not_D by done.
       by destruct (Typ slot). }
  change (" IMPORT/EXPORT" ++ ":" ++ ?b) with (" IMPORT/EXPORT:" ++ b).
  rewrite find_slot_none; [| exact Hn |].
  2: { destruct (Vol slot) as [v|]; [right | by left].
       rewrite all_chars_app.
       rewrite (all_chars_impl serial_char not_t (Serial v)
                  serial_char_not_t);
         [reflexivity | apply Hvol]. }
  rewrite find_mail_slot by (by try apply slot_body_not_newline).
  rewrite sub_1, sub_2, Atoi_Itoa, bind_Ok by lia.
  destruct (Vol slot) as [v|]; [|reflexivity].
  change (String.eqb _ "Empty") with false. cbn [negb].
  rewrite find_slot_element by (by apply vol_serial_not_newline).
  reflexivity.
Qed.

(** ** The changers that [New] and the three operations make *)

Section Store.
Context {A B : Type} (f : A → B).
Implicit Types (l : list A) (i : Z) (x y : A).

Lemma fmap_store_same l i x y :
  index l i = Some x → f y = f x → f <$> store l i y = f <$> l.
Proof.
  intros [Hi Hx]%index_Some Hf. unfold store.
  rewrite list_fmap_insert, Hf. apply list_insert_id.
  by rewrite list_lookup_fmap, Hx.
Qed.

Lemma Forall_store (P : A → Prop) l i y :
  Forall P l → P y → Forall P (store l i y).
Proof. intros Hl Hy. unfold store. by apply Forall_insert. Qed.

Lemma Forall_index (P : A → Prop) l i x :
  Forall P l → index l i = Some x → P x.
Proof.
  intros Hl [_ Hx]%index_Some. by eapply Forall_lookup_1.
Qed.
End Store.

Lemma load_returns_inv chgr slotnum drivenum r :
  load slotnum drivenum chgr = Returns r →
  ∃ slot drv,
    slot_at chgr slotnum = Some slot ∧ drive_at chgr drivenum = Some drv.
Proof.
  unfold load, slot_at, drive_at.
  destruct (index (slots chgr) (slotnum - 1)) as [slot|]; [|done].
  destruct (index (drives chgr) drivenum) as [drv|]; [|done].
  intros _. by exists slot, drv.
Qed.

Lemma transfer_returns_inv chgr a b e chgr' :
  transfer a b chgr = Returns (e, chgr') →
  chgr' = chgr
  ∨ ∃ src dst vol,
      slot_at chgr a = Some src ∧ Vol src = Some vol
      ∧ slot_at chgr b = Some dst ∧ Vol dst = None
      ∧ chgr' = set_slots chgr
                  (store (store (slots chgr) (b - 1) (set_Vol dst (Some vol)))
                     (a - 1) (set_Vol src None)).
Proof.
  intros H.
  destruct (slot_at chgr a) as [src|] eqn:Ha.
  2: { unfold transfer in H. unfold slot_at in Ha. by rewrite Ha in H. }
  destruct (Vol src) as [vol|] eqn:Hv.
  2: { rewrite (transfer_no_volume _ _ _ _ Ha Hv) in H. left. congruence. }
  destruct (slot_at chgr b) as [dst|] eqn:Hb.
  2: { unfold transfer in H. unfold slot_at in Ha, Hb.
       by rewrite Ha, Hv, Hb in H. }
  destruct (Vol dst) as [vol'|] eqn:Hv'.
  - rewrite (transfer_occupied _ _ _ _ _ _ _ Ha Hv Hb Hv') in H.
    left. congruence.
  - rewrite (transfer_moves _ _ _ _ _ _ Ha Hv Hb Hv') in H.
    right. exists src, dst, vol. repeat split; try done. congruence.
Qed.

(** The three operations keep a changer well formed. *)
Lemma exec_well_formed o chgr e chgr' :
  well_formed chgr → exec o chgr = Returns (e, chgr') → well_formed chgr'.
Proof.
  intros [Hd Hdn Hdc Hs Ht H1 H2 H3] Hexec.
  destruct o as [slotnum drivenum | slotnum drivenum | a b]; simpl in Hexec.
  - destruct (load_returns_inv _ _ _ _ Hexec) as (slot & drv & Hslot & Hdrv).
    rewrite (load_eq _ _ _ _ _ Hslot Hdrv) in Hexec.
    injection Hexec as _ <-.
    pose proof (Forall_index _ _ _ _ Hd Hdrv) as [Hdt Hdv].
    pose proof (Forall_index _ _ _ _ Hs Hslot) as (Hst & Hsn & Hsv).
    split; simpl; try done.
    + apply Forall_store; [done|]. split; simpl; done.
    + rewrite length_store. by rewrite (fmap_store_same Num _ _ drv).
    + by rewrite length_store.
    + apply Forall_store; [done|]. repeat split; simpl; done || lia.
    + by rewrite (fmap_store_same Typ _ _ slot).
  - destruct (unload_returns_inv _ _ _ _ Hexec)
      as (drv & dest & slot & Hdrv & Hdest & Hslot).
    rewrite (unload_eq _ _ _ _ _ _ Hdrv Hdest Hslot) in Hexec.
    injection Hexec as _ <-.
    pose proof (Forall_index _ _ _ _ Hd Hdrv) as [Hdt Hdv].
    pose proof (Forall_index _ _ _ _ Hs Hslot) as (Hst & Hsn & Hsv).
    split; simpl; try done.
    + apply Forall_store; [done|]. split; simpl; done.
    + rewrite length_store. by rewrite (fmap_store_same Num _ _ drv).
    + by rewrite length_store.
    + apply Forall_store; [done|]. repeat split; simpl; done || lia.
    + by rewrite (fmap_store_same Typ _ _ slot).
  - destruct (transfer_returns_inv _ _ _ _ _ Hexec)
      as [-> | (src & dst & vol & Ha & Hv & Hb & Hv' & ->)]; [by split|].
    pose proof (Forall_index _ _ _ _ Hs Ha) as (Hat & Han & Hav).
    pose proof (Forall_index _ _ _ _ Hs Hb) as (Hbt & Hbn & Hbv).
    assert (a ≠ b) by (intros ->; congruence).
    assert (index (store (slots chgr) (b - 1) (set_Vol dst (Some vol))) (a - 1)
            = Some src) as Ha'.
    { unfold slot_at in *. rewrite index_store_ne; [done | | lia].
      apply index_range in Hb. lia. }
    split; simpl; try done.
    + rewrite Hv in Hav.
      apply Forall_store; [apply Forall_store|]; try done;
        unfold slot_ok; simpl; auto.
    + rewrite (fmap_store_same Typ _ _ src) by done.
      by rewrite (fmap_store_same Typ _ _ dst).
Qed.

Lemma run_well_formed ops chgr chgr' :
  well_formed chgr → run ops chgr = Returns chgr' → well_formed chgr'.
Proof.
  revert chgr. induction ops as [|o ops IH]; intros chgr Hwf; simpl.
  - by intros [= <-].
  - destruct (exec o chgr) as [[e chgr1]|p] eqn:Hexec; [|done].
    apply IH. by eapply exec_well_formed.
Qed.

(** ** What [New] makes is well formed *)

Lemma wrap_range x : - 2 ^ 63 ≤ wrap x < 2 ^ 63.
Proof. unfold wrap. pose proof (Z.mod_pos_bound (x + 2 ^ 63) (2 ^ 64)). lia. Qed.

Lemma zeros_chars k : all_chars serial_char (zeros k) = true.
Proof. induction k; simpl; done. Qed.

Lemma length_zeros k : String.length (zeros k) = k.
Proof. induction k; simpl; congruence. Qed.

Lemma Itoa_serial_chars n : all_chars serial_char (Itoa n) = true.
Proof.
  eapply all_chars_impl; [apply numeric_serial_char | apply Itoa_numeric].
Qed.

Lemma fmt_05d_chars n : all_chars serial_char (fmt_05d n) = true.
Proof.
  unfold fmt_05d. destruct (n <? 0).
  - change ("-" ++ ?s) with (String "-" s). cbn [all_chars].
    by rewrite all_chars_app, zeros_chars, Itoa_serial_chars.
  - by rewrite all_chars_app, zeros_chars, Itoa_serial_chars.
Qed.

Lemma fmt_05d_length n :
  - 2 ^ 64 < n < 2 ^ 64 → (String.length (fmt_05d n) ≤ 71)%nat.
Proof.
  intros Hn. unfold fmt_05d. destruct (n <? 0).
  - change ("-" ++ ?s) with (String "-" s). cbn [String.length].
    rewrite length_append, length_zeros.
    pose proof (Itoa_length (- n) ltac:(lia)). lia.
  - rewrite length_append, length_zeros.
    pose proof (Itoa_length n Hn). lia.
Qed.

Lemma synthetic_vol_ok n home :
  - 2 ^ 64 < n < 2 ^ 64 → 0 ≤ home < 2 ^ 63 →
  vol_ok {| Serial := "S" ++ fmt_05d n ++ "L6"; Home := home |}.
Proof.
  intros Hn Hhome. split; [|split]; simpl; [| |done].
  - change ("S" ++ ?s) with (String "S" s). cbn [all_chars].
    by rewrite all_chars_app, fmt_05d_chars.
  - change ("S" ++ ?s) with (String "S" s). cbn [String.length].
    rewrite length_append. pose proof (fmt_05d_length n Hn). simpl. lia.
Qed.

Lemma new_slot_Typ ns nm nv i :
  Typ (new_slot ns nm nv i) = if i >=? ns then MailSlot else StorageSlot.
Proof.
  unfold new_slot. cbv zeta.
  repeat match goal with |- context [if ?b then _ else _] => destruct b end;
    reflexivity.
Qed.

Lemma new_slot_ok ns nm nv i :
  0 ≤ i → i + 1 < 2 ^ 63 → is_int nv → slot_ok (new_slot ns nm nv i).
Proof.
  intros Hi Hi' Hnv. unfold is_int in Hnv.
  split; [|split].
  - rewrite new_slot_Typ. destruct (i >=? ns); auto.
  - unfold new_slot. cbv zeta.
    repeat match goal with |- context [if ?b then _ else _] => destruct b end;
      simpl; lia.
  - assert (vol_ok {| Serial := "CLN000L1"; Home := i + 1 |}) as Hcln.
    { split; [|split]; simpl; [done | lia | lia]. }
    pose proof (synthetic_vol_ok i (i + 1) ltac:(lia) ltac:(lia)).
    pose proof (synthetic_vol_ok nv i ltac:(lia) ltac:(lia)).
    unfold new_slot. cbv zeta.
    repeat match goal with |- context [if ?b then _ else _] => destruct b end;
      simpl; done.
Qed.

Lemma New_well_formed nd ns nm nv chgr :
  is_int nd → is_int ns → is_int nm → is_int nv →
  New nd ns nm nv = Returns chgr → well_formed chgr.
Proof.
  unfold is_int. intros Hnd Hns Hnm Hnv. unfold New, make_range.
  pose proof (wrap_range (ns + nm)) as Hw.
  destruct (Z.ltb_spec nd 0) as [|Hd]; [done|].
  destruct (Z.ltb_spec (wrap (ns + nm)) 0) as [|Hs]; [done|].
  intros [= <-]. split; simpl; try lia.
  - apply Forall_fmap, Forall_true. intros i. by split.
  - rewrite !length_fmap, length_seq, <- list_fmap_compose.
    etransitivity; [|apply list_fmap_id].
    apply list_fmap_ext. by intros.
  - rewrite !length_fmap, length_seq. lia.
  - apply Forall_fmap, Forall_fmap, Forall_forall. intros k Hk.
    apply elem_of_seq in Hk. apply new_slot_ok; unfold is_int; lia.
  - intros i j Hij Hi [t Hj].
    rewrite <- !list_fmap_compose in *.
    rewrite list_lookup_fmap in Hi, Hj |- *.
    destruct (seq 0 (Z.to_nat (wrap (ns + nm))) !! i) as [i'|] eqn:Hi';
      [|done].
    destruct (seq 0 (Z.to_nat (wrap (ns + nm))) !! j) as [j'|] eqn:Hj';
      [|done].
    apply lookup_seq in Hi' as [-> _]. apply lookup_seq in Hj' as [-> _].
    cbn [fmap option_fmap option_map compose] in *.
    rewrite new_slot_Typ in *.
    destruct (Z.geb_spec (Z.of_nat (0 + i)) ns); [|done].
    destruct (Z.geb_spec (Z.of_nat (0 + j)) ns); [done | lia].
Qed.

(** ** The text of a well-formed changer, line by line *)

Lemma serial_char_plain a : serial_char a = true → plain a = true.
Proof.
  intros Ha. unfold plain.
  by rewrite serial_char_not_newline, serial_char_not_CR.
Qed.

Lemma plain_not_newline s :
  all_chars plain s = true → all_chars not_newline s = true.
Proof. apply all_chars_impl. by intros a [? _]%andb_true_iff. Qed.

Lemma plain_not_CR s : all_chars plain s = true → all_chars not_CR s = true.
Proof. apply all_chars_impl. by intros a [_ ?]%andb_true_iff. Qed.

Lemma Itoa_plain n : all_chars plain (Itoa n) = true.
Proof.
  eapply all_chars_impl; [apply serial_char_plain | apply Itoa_serial_chars].
Qed.

Lemma mtxSlotString_plain slot :
  opt_vol_ok (Vol slot) →
  all_chars plain (mtxSlotString slot) = true
  ∧ (String.length (mtxSlotString slot) ≤ 300)%nat.
Proof.
  unfold mtxSlotString.
  destruct (Vol slot) as [v|]; [|split; [reflexivity | simpl; lia]].
  intros (Hchars & Hlen & Hhome).
  apply (all_chars_impl _ _ _ serial_char_plain) in Hchars.
  pose proof (Itoa_length (Home v) ltac:(lia)) as Hl.
  destruct (Typ slot).
  - rewrite !all_chars_app, !length_append, Itoa_plain, Hchars.
    split; [reflexivity | simpl; lia].
  - rewrite !all_chars_app, !length_append, Hchars.
    split; [reflexivity | simpl; lia].
  - rewrite !all_chars_app, !length_append, Hchars.
    split; [reflexivity | simpl; lia].
Qed.

Lemma drive_core_plain i drv :
  Z.of_nat i < 2 ^ 63 → drive_ok drv →
  all_chars plain (drive_core i drv) = true
  ∧ (String.length (drive_core i drv) ≤ 1000)%nat.
Proof.
  intros Hi [_ Hv]. destruct (mtxSlotString_plain drv Hv) as [Hc Hl].
  pose proof (Itoa_length (Z.of_nat i) ltac:(lia)).
  unfold drive_core.
  rewrite !all_chars_app, !length_append, Itoa_plain, Hc.
  split; [reflexivity | simpl; lia].
Qed.

Lemma slot_core_plain slot :
  slot_ok slot →
  all_chars plain (slot_core slot) = true
  ∧ (String.length (slot_core slot) ≤ 1000)%nat.
Proof.
  intros (_ & Hn & Hv). destruct (mtxSlotString_plain slot Hv) as [Hc Hl].
  pose proof (Itoa_length (Num slot) ltac:(lia)).
  unfold slot_core. cbv zeta.
  rewrite !all_chars_app, !length_append, Itoa_plain, Hc.
  destruct (Typ slot); (split; [reflexivity | simpl; lia]).
Qed.

Lemma token_core l :
  all_chars plain l = true ∧ (String.length l ≤ 1000)%nat → token l = Some l.
Proof. intros [Hc Hl]. apply token_plain; [by apply plain_not_CR | done]. Qed.

Lemma drive_line_core i drv : drive_line i drv = drive_core i drv ++ nl.
Proof. unfold drive_line, drive_core. by rewrite !append_assoc. Qed.

Lemma slot_line_core slot : slot_line slot = slot_core slot ++ nl.
Proof. unfold slot_line, slot_core. cbv zeta. by rewrite !append_assoc. Qed.

Lemma raw_lines_concat ls rest :
  Forall (λ l, all_chars not_newline l = true) ls →
  raw_lines (concat_lines ((λ l, l ++ nl) <$> ls) ++ rest)
  = (ls ++ raw_lines rest)%list.
Proof.
  induction 1 as [|l ls Hl Hls IH]; [reflexivity|].
  cbn [fmap list_fmap concat_lines foldr].
  change (foldr String.append "" (list_fmap _ _ ?f ls))
    with (concat_lines (f <$> ls)).
  rewrite !append_assoc, raw_lines_cons by exact Hl.
  unfold concat_lines in IH. by rewrite IH.
Qed.

Lemma element_line_slot slot elems :
  slot_ok slot →
  element_line (slot_core slot) elems = Ok (add_slot elems (parsed_slot slot)).
Proof.
  intros ([Ht | Ht] & Hn & Hv); unfold add_slot, parsed_slot; simpl;
    rewrite Ht.
  - by apply element_line_storage.
  - by apply element_line_mail.
Qed.

Lemma scan_elements_drives drives k rest elems :
  Forall drive_ok drives →
  Z.of_nat (k + length drives) < 2 ^ 63 →
  scan_elements (imap (λ i, drive_core (k + i)) drives ++ rest) elems
  = scan_elements rest
      (foldl add_slot elems (imap (λ i, parsed_drive (k + i)) drives)).
Proof.
  intros Hd. revert k elems.
  induction Hd as [|drv drives Hdrv Hd IH]; intros k elems Hk; [reflexivity|].
  rewrite !imap_cons. cbn [app scan_elements foldl]. simpl in Hk.
  rewrite token_core by (apply drive_core_plain; [lia | done]).
  rewrite Nat.add_0_r.
  rewrite element_line_drive; [| lia | apply Hdrv | apply Hdrv].
  rewrite bind_Ok.
  rewrite (imap_ext _ (λ i, drive_core (S k + i)) drives)
    by (intros; simpl; f_equal; lia).
  rewrite (imap_ext (_ ∘ S) (λ i, parsed_drive (S k + i)) drives)
    by (intros; simpl; f_equal; lia).
  apply IH. lia.
Qed.

Lemma scan_elements_slots slots elems :
  Forall slot_ok slots →
  scan_elements (slot_core <$> slots) elems
  = Ok (foldl add_slot elems (parsed_slot <$> slots)).
Proof.
  intros Hs. revert elems.
  induction Hs as [|slot slots Hslot Hs IH]; intros elems; [reflexivity|].
  cbn [fmap list_fmap scan_elements foldl].
  rewrite token_core by (by apply slot_core_plain).
  rewrite element_line_slot, bind_Ok by done.
  apply IH.
Qed.

(** ** The round trip of the element lines *)

Lemma get_slots_add_slot elems slot k :
  get_slots (add_slot elems slot) k
  = if decide (key_of (Typ slot) = k)
    then (get_slots elems k ++ [slot])%list
    else get_slots elems k.
Proof.
  unfold add_slot, append_slot, get_slots. rewrite lookup_insert.
  case_decide as Hk; [by subst k | done].
Qed.

Lemma get_slots_foldl l elems k :
  get_slots (foldl add_slot elems l) k
  = (get_slots elems k ++ filter (λ s, key_of (Typ s) = k) l)%list.
Proof.
  revert elems. induction l as [|s l IH]; intros elems; simpl.
  - by rewrite app_nil_r.
  - rewrite IH, get_slots_add_slot, filter_cons.
    case_decide; [by rewrite <- app_assoc | done].
Qed.

Lemma filter_all {A} (P : A → Prop) `{∀ x, Decision (P x)} (l : list A) :
  Forall P l → filter P l = l.
Proof.
  induction 1 as [|x l Hx Hl IH]; [done|].
  rewrite filter_cons, decide_True by done. by rewrite IH.
Qed.

Lemma filter_none {A} (P : A → Prop) `{∀ x, Decision (P x)} (l : list A) :
  Forall (λ x, ¬ P x) l → filter P l = [].
Proof.
  induction 1 as [|x l Hx Hl IH]; [done|].
  by rewrite filter_cons, decide_False.
Qed.

(** Storage slots first and mail slots last: the two groups, one after
    the other, are the list. *)
Lemma storage_then_mail (l : list Slot) :
  Forall (λ s, Typ s = StorageSlot ∨ Typ s = MailSlot) l →
  mail_last (Typ <$> l) →
  (filter (λ s, key_of (Typ s) = "storage") l
   ++ filter (λ s, key_of (Typ s) = "mail") l)%list = l.
Proof.
  induction 1 as [|s l Hs Hl IH]; intros Hlast; [done|].
  assert (mail_last (Typ <$> l)) as Hlast'.
  { intros i j Hij Hi Hj. apply (Hlast (S i) (S j)); [lia | done | done]. }
  rewrite !filter_cons. destruct Hs as [Hs | Hs]; rewrite Hs; simpl.
  - by rewrite IH.
  - assert (Forall (λ s, Typ s = MailSlot) l) as Hmail.
    { apply Forall_lookup. intros j x Hx.
      assert ((Typ <$> s :: l) !! S j = Some MailSlot) as Hj.
      { apply (Hlast 0%nat (S j)); [lia | by simpl; rewrite Hs |].
        simpl. rewrite list_lookup_fmap, Hx. by eexists. }
      simpl in Hj. rewrite list_lookup_fmap, Hx in Hj. by injection Hj. }
    rewrite filter_none, filter_all; [done | |].
    + eapply Forall_impl; [exact Hmail|]. intros x Hx. by rewrite Hx.
    + eapply Forall_impl; [exact Hmail|]. intros x Hx. by rewrite Hx.
Qed.

Lemma header_line_plain a b c :
  all_chars is_numeric a = true → all_chars is_numeric b = true →
  all_chars is_numeric c = true →
  all_chars plain (header_line a b c) = true.
Proof.
  intros Ha Hb Hc. unfold header_line.
  assert (∀ n, all_chars is_numeric n = true → all_chars plain n = true)
    as Hn.
  { intros n. apply all_chars_impl. intros x Hx.
    by apply serial_char_plain, numeric_serial_char. }
  rewrite !all_chars_app, (Hn a), (Hn b), (Hn c) by assumption.
  reflexivity.
Qed.

Lemma NewScanner_status chgr :
  well_formed chgr →
  NewScanner (status chgr)
  = header_line (Itoa (numDrives chgr))
      (Itoa (wrap (numStorageSlots chgr + numMailSlots chgr)))
      (Itoa (numMailSlots chgr))
    :: (imap drive_core (drives chgr) ++ (slot_core <$> slots chgr))%list.
Proof.
  intros Hwf. unfold NewScanner, status.
  rewrite header_eq, append_assoc.
  rewrite raw_lines_cons by (apply header_line_not_newline; apply Itoa_numeric).
  f_equal.
  rewrite (imap_ext drive_line (λ i, (λ l, l ++ nl) ∘ drive_core i))
    by (intros; apply drive_line_core).
  rewrite <- (fmap_imap drive_core (λ l, l ++ nl)).
  rewrite (list_fmap_ext slot_line ((λ l, l ++ nl) ∘ slot_core))
    by (intros; apply slot_line_core).
  rewrite list_fmap_compose.
  rewrite raw_lines_concat.
  - f_equal.
    rewrite <- (append_nil_r (concat_lines _)), raw_lines_concat.
    + by rewrite app_nil_r.
    + apply Forall_fmap. eapply Forall_impl; [apply (wf_slots _ Hwf)|].
      intros slot Hslot. simpl. by apply plain_not_newline, slot_core_plain.
  - apply Forall_lookup. intros i l Hl.
    apply list_lookup_imap_Some in Hl as (drv & Hdrv & ->).
    apply plain_not_newline, drive_core_plain.
    + apply lookup_lt_Some in Hdrv. pose proof (wf_drive_count _ Hwf). lia.
    + by eapply Forall_lookup_1; [apply (wf_drives _ Hwf)|].
Qed.

(** What [elements] returns for the text of a well-formed changer. *)
Lemma elements_status chgr :
  well_formed chgr →
  elements (status chgr)
  = Ok (foldl add_slot
          (foldl add_slot initial_elements (imap parsed_drive (drives chgr)))
          (parsed_slot <$> slots chgr)).
Proof.
  intros Hwf. unfold elements. rewrite NewScanner_status by done.
  rewrite token_core.
  2: { split; [apply header_line_plain; apply Itoa_numeric|].
       pose proof (Itoa_length _ (wf_numDrives _ Hwf)).
       pose proof (Itoa_length _ (wf_numSlots _ Hwf)).
       pose proof (Itoa_length _ (wf_numMailSlots _ Hwf)).
       unfold header_line. rewrite !length_append. simpl. lia. }
  rewrite (scan_elements_drives (drives chgr) 0);
    [| apply (wf_drives _ Hwf) | apply (wf_drive_count _ Hwf)].
  by apply scan_elements_slots, wf_slots.
Qed.

Lemma view_parsed_slot slot : view (parsed_slot slot) = view slot.
Proof. unfold view, serial_of. simpl. by destruct (Vol slot). Qed.

Lemma view_parsed_drives chgr :
  well_formed chgr →
  view <$> imap parsed_drive (drives chgr) = view <$> drives chgr.
Proof.
  intros Hwf. apply list_eq. intros i.
  rewrite !list_lookup_fmap, list_lookup_imap.
  destruct (drives chgr !! i) as [drv|] eqn:Hdrv; [|done]. simpl.
  f_equal. unfold view, parsed_drive, serial_of. simpl.
  pose proof (Forall_lookup_1 _ _ _ _ (wf_drives _ Hwf) Hdrv) as [Ht _].
  assert ((Num <$> drives chgr) !! i = Some (Num drv)) as Hnum
    by (by rewrite list_lookup_fmap, Hdrv).
  rewrite (wf_drive_nums _ Hwf), list_lookup_fmap in Hnum.
  apply lookup_lt_Some in Hdrv.
  rewrite lookup_seq_lt in Hnum by done. simpl in Hnum.
  injection Hnum as <-. by rewrite Ht.
Qed.

(** For a well-formed changer [elements] parses the status text, and the
    drives and the slots it returns, storage slots first, have the numbers,
    types and serials of the changer's own drives and slots. *)
Lemma elements_well_formed chgr :
  well_formed chgr →
  ∃ elems,
    elements (status chgr) = Ok elems
    ∧ view <$> get_slots elems "transfer" = view <$> drives chgr
    ∧ view <$> (get_slots elems "storage" ++ get_slots elems "mail")%list
      = view <$> slots chgr.
Proof.
  intros Hwf. eexists. split; [by apply elements_status|].
  assert (Forall (λ s, Typ s = StorageSlot ∨ Typ s = MailSlot)
            (parsed_slot <$> slots chgr)) as Htypes.
  { apply Forall_fmap. eapply Forall_impl; [apply (wf_slots _ Hwf)|].
    by intros slot [Ht _]. }
  assert (Forall (λ s, Typ s = DataTransferSlot)
            (imap parsed_drive (drives chgr))) as Hdrives.
  { apply Forall_lookup. intros i s Hs.
    by apply list_lookup_imap_Some in Hs as (drv & _ & ->). }
  rewrite !get_slots_foldl.
  change (get_slots initial_elements "transfer") with (@nil Slot).
  change (get_slots initial_elements "storage") with (@nil Slot).
  change (get_slots initial_elements "mail") with (@nil Slot).
  split.
  - rewrite filter_all, filter_none; simpl.
    + rewrite app_nil_r. by apply view_parsed_drives.
    + eapply Forall_impl; [exact Htypes|]. by intros s [-> | ->].
    + eapply Forall_impl; [exact Hdrives|]. by intros s ->.
  - rewrite !(filter_none _ (imap parsed_drive (drives chgr))); simpl.
    + rewrite storage_then_mail.
      * rewrite <- list_fmap_compose. apply list_fmap_ext.
        intros. apply view_parsed_slot.
      * exact Htypes.
      * rewrite <- list_fmap_compose. apply (wf_types _ Hwf).
    + eapply Forall_impl; [exact Hdrives|]. by intros s ->.
    + eapply Forall_impl; [exact Hdrives|]. by intros s ->.
Qed.

(** The round trip of the element lines: from [New] on Go [int]s and any
    sequence of [load], [unload] and [transfer] calls that return. *)
Theorem elements_roundtrip nd ns nm nv ops chgr0 chgr :
  is_int nd → is_int ns → is_int nm → is_int nv →
  New nd ns nm nv = Returns chgr0 →
  run ops chgr0 = Returns chgr →
  ∃ elems,
    elements (status chgr) = Ok elems
    ∧ view <$> get_slots elems "transfer" = view <$> drives chgr
    ∧ view <$> (get_slots elems "storage" ++ get_slots elems "mail")%list
      = view <$> slots chgr.
Proof.
  intros Hnd Hns Hnm Hnv HNew Hrun.
  apply elements_well_formed.
  eapply run_well_formed; [|exact Hrun].
  exact (New_well_formed nd ns nm nv chgr0 Hnd Hns Hnm Hnv HNew).
Qed.

(** ** The seeded mock and the accessors of a changer wrapping it *)

(** C2. [New(8, 32, 4, 16)] returns a changer with eight empty drives
    numbered 0 to 7 and 36 slots numbered 1 to 36: slots 1 to 16 hold
    S00000L6 to S00015L6, slot 32 holds CLN000L1, the mail slots are 33
    to 36 and the last of them, 36, holds S00016L6 with home 35; slot 33
    is empty.  The header the mock writes is not matched by [hdrRegexp],
    so for a changer wrapping this mock [NumStorageSlots], [NumMailSlots]
    and [MaxDrives] each return -1 and the error of the header. *)
Theorem seeded_fixture :
  New 8 32 4 16 = Returns fixture
  ∧ (λ drv, (Num drv, Typ drv, Vol drv)) <$> drives fixture
    = (λ i, (i, DataTransferSlot, None)) <$> [0; 1; 2; 3; 4; 5; 6; 7]
  ∧ Num <$> slots fixture = Z.of_nat <$> seq 1 36
  ∧ Typ <$> slots fixture
    = (replicate 32 StorageSlot ++ replicate 4 MailSlot)%list
  ∧ serial_of <$> slots fixture
    = ((Some <$> ["S00000L6"; "S00001L6"; "S00002L6"; "S00003L6";
                  "S00004L6"; "S00005L6"; "S00006L6"; "S00007L6";
                  "S00008L6"; "S00009L6"; "S00010L6"; "S00011L6";
                  "S00012L6"; "S00013L6"; "S00014L6"; "S00015L6"])
       ++ replicate 15 None ++ [Some "CLN000L1"]
       ++ replicate 3 None ++ [Some "S00016L6"])%list
  ∧ slot_at fixture 32
    = Some {| Num := 32; Typ := StorageSlot;
              Vol := Some {| Serial := "CLN000L1"; Home := 32 |} |}
  ∧ slot_at fixture 33 = Some {| Num := 33; Typ := MailSlot; Vol := None |}
  ∧ slot_at fixture 36
    = Some {| Num := 36; Typ := MailSlot;
              Vol := Some {| Serial := "S00016L6"; Home := 35 |} |}
  ∧ Changer.NumStorageSlots Do fixture
    = Returns (-1, Some header_error, fixture)
  ∧ Changer.NumMailSlots Do fixture = Returns (-1, Some header_error, fixture)
  ∧ Changer.MaxDrives Do fixture = Returns (-1, Some header_error, fixture).
Proof. repeat split; vm_compute; reflexivity. Qed.

(** ** Parsing what the mock writes *)

(** C1. Whatever the mock holds, [params] fails on the text [status]
    writes: [hdrRegexp] wants the count of mail slots right after the
    opening parenthesis and the mock writes a blank there.  For the mock
    of [New(8, 32, 4, 16)] the first line is [fixture_header], which the
    pattern does not match, and [params] returns the error of the header;
    the same line without that blank gives 8, 36 and 4.  The other half
    of the round trip holds: [elements] parses that text, and the drives
    and slots it returns have the numbers, types and serials of the mock's
    own; so it is for every mock that [New] makes from Go [int]s and that
    [load], [unload] and [transfer] calls that return have worked on. *)
Theorem params_rejects_mock_status :
  (∀ chgr, is_Err (params (status chgr)))
  ∧ status fixture
    = fixture_header ++ nl
      ++ concat_lines (imap drive_line (drives fixture))
      ++ concat_lines (slot_line <$> slots fixture)
  ∧ FindStringSubmatch hdrRegexp fixture_header = None
  ∧ params (status fixture) = Err header_error
  ∧ params tight_header
    = Ok (<["numMailSlots" := 4]>
            (<["numSlots" := 36]> (<["maxDrives" := 8]> ∅)))
  ∧ (∃ elems,
       elements (status fixture) = Ok elems
       ∧ view <$> get_slots elems "transfer" = view <$> drives fixture
       ∧ view <$> (get_slots elems "storage" ++ get_slots elems "mail")%list
         = view <$> slots fixture)
  ∧ (∀ nd ns nm nv ops chgr0 chgr,
       is_int nd → is_int ns → is_int nm → is_int nv →
       New nd ns nm nv = Returns chgr0 →
       run ops chgr0 = Returns chgr →
       ∃ elems,
         elements (status chgr) = Ok elems
         ∧ view <$> get_slots elems "transfer" = view <$> drives chgr
         ∧ view <$> (get_slots elems "storage" ++ get_slots elems "mail")%list
           = view <$> slots chgr).
Proof.
  split; [exact params_status_fails|].
  split; [reflexivity|].
  split; [vm_compute; reflexivity|].
  split; [vm_compute; reflexivity|].
  split; [vm_compute; reflexivity|].
  split; [|exact elements_roundtrip].
  apply (elements_roundtrip 8 32 4 16 [] fixture fixture);
    try (unfold is_int; lia); reflexivity.
Qed.
